(** * Utils: the sequential promise combinator [chain]

    A shallow embedding of [chain], the sequential coordinator among the
    function utilities of the Utils repository, together with the part of
    the host's Promise semantics the function relies on, and the properties
    of the coordinator stated against it.

    What is modelled of the host:
    - JavaScript values, as far as [chain] inspects them: [typeof value]
      being "function", [Array.isArray], [null === x] and [null == x];
    - functions as identifiers into a table of bodies; a body transforms an
      abstract world and completes by returning or by throwing;
    - a promise object handed to [chain] (as a step, or returned by a
      step's function) by the way it settles: fulfilled with a value,
      rejected with an error, or never;
    - [then] and [catch] reactions.  [chain] builds one linear sequence of
      reactions, so the reactions run one after another in the order of the
      sequence; a promise under construction is therefore the job that runs
      the reactions attached so far on the run's state.  Wall-clock time is
      not part of the model.

    Beside [chain] the file embeds [nerf] and [debounce] of the same
    utilities and [clamp] and [deCasteljau] of the number utilities:
    - [nerf] as the handler it returns, run on the variable [lastError] it
      is closed over;
    - [debounce] as the function it returns and the timer callback, run on
      the four variables they are closed over and the host's timers; what
      happens to a debounced function is a sequence of events, each with
      the time [Date.now()] answers, and [fn] is taken not to call the
      debounced function itself;
    - [clamp] on integers, and [deCasteljau] over any numbers with [+],
      [-] and [*]. *)

From Stdlib Require Import String ZArith Bool Arith List Lia.
From Stdlib Require QArith.
Import ListNotations.

Set Implicit Arguments.
Set Warnings "-register-all".

(** ** JavaScript values *)

Module JS.

(** Identity of a function object. *)
Definition fid := nat.

Inductive value : Type :=
| VUndefined
| VNull
| VBool (b : bool)
| VNum (n : Z)
| VStr (s : string)
| VArray (elems : list value)
| VFun (f : fid)
| VPromise (p : promise)
with promise : Type :=
| Fulfills (v : value)
| Rejects (e : value)
| NeverSettles.

(** How a statement block or a call completes. *)
Inductive completion : Type :=
| Return (v : value)
| Throw (e : value).

(** The eventual state of a promise. *)
Inductive outcome : Type :=
| Fulfilled (v : value)
| Rejected (e : value)
| Pending.

(** ["function" === typeof v] *)
Definition is_function (v : value) : bool :=
  match v with VFun _ => true | _ => false end.

(** [null === v] *)
Definition is_null (v : value) : bool :=
  match v with VNull => true | _ => false end.

(** [null == v]: loose equality with null holds of null and undefined. *)
Definition loosely_null (v : value) : bool :=
  match v with VNull | VUndefined => true | _ => false end.

Definition is_promise (v : value) : bool :=
  match v with VPromise _ => true | _ => false end.

(** [ToBoolean(v)] on the values of the model. *)
Definition truthy (v : value) : bool :=
  match v with
  | VUndefined | VNull => false
  | VBool b => b
  | VNum n => negb (Z.eqb n 0)
  | VStr s => negb (String.eqb s EmptyString)
  | VArray _ | VFun _ | VPromise _ => true
  end.

(** [Promise.reject(e)] *)
Definition Promise_reject (e : value) : value := VPromise (Rejects e).

(** [Promise.resolve(v)]: a promise is returned as it is. *)
Definition Promise_resolve (v : value) : value :=
  match v with
  | VPromise _ => v
  | _ => VPromise (Fulfills v)
  end.

(** Resolving a promise with [v]: a promise is adopted, anything else
    fulfils. *)
Fixpoint adopt (v : value) : outcome :=
  match v with
  | VPromise p =>
      match p with
      | Fulfills v' => adopt v'
      | Rejects e => Rejected e
      | NeverSettles => Pending
      end
  | _ => Fulfilled v
  end.

(** The promise derived from a reaction settles by the reaction's
    completion: a thrown value rejects it, a returned value resolves it. *)
Definition settle (c : completion) : outcome :=
  match c with
  | Return v => adopt v
  | Throw e => Rejected e
  end.

(** A step of the spec's data model that is an already available result:
    neither callable nor a promise. *)
Definition plain (v : value) : bool :=
  negb (is_function v) && negb (is_promise v).

End JS.

Import JS.

(** ** A small host for running the coordinator

    The world is a counter that every call increments. *)

Module Demo.

(** [0]: [() => 2]; [1]: [() => Promise.resolve(4)];
    [2]: [() => { throw "x"; }]; [3]: [() => { throw null; }];
    [4]: [() => Promise.reject()]; any other: [() => 99]. *)
Definition table (f : fid) (counter : nat) : completion * nat :=
  match f with
  | 0 => (Return (VNum 2), S counter)
  | 1 => (Return (Promise_resolve (VNum 4)), S counter)
  | 2 => (Throw (VStr "x"), S counter)
  | 3 => (Throw VNull, S counter)
  | 4 => (Return (Promise_reject VUndefined), S counter)
  | _ => (Return (VNum 99), S counter)
  end.

(** [Promise.reject("x")], made before the coordinator is called. *)
Definition rejected_x : value := Promise_reject (VStr "x").

End Demo.

(** ** The exception-proof wrapper [nerf] *)

Module Nerf.

Section Nerf.

(** The host's world, and [fn.call(context, ...args)] for the function
    object behind an identity. *)
Variable W : Type.
Variable apply : fid -> value -> list value -> W -> completion * W.

(** What [nerf(fn, context)] completes with: a thrown [TypeError], or the
    function [handler], closed over [fn] and [context]. *)
Inductive nerfed : Type :=
| TypeError (message : string)
| Handler (fn : fid) (context : value).

(** [function nerf(fn, context = null)]: the default stands in for an
    argument that is missing or undefined. *)
Definition nerf (fn : value) (context : option value) : nerfed :=
  match fn with
  | VFun f =>
      Handler f match context with
                | None | Some VUndefined => VNull
                | Some c => c
                end
  | _ => TypeError "Argument must be a function"
  end.

(** The variable [lastError] a handler is closed over ([null] when [nerf]
    returns, and open to assignment through the handler's property), and
    the world. *)
Record cell : Type := mkCell {
  lastError : value;
  hworld : W
}.

(** [handler(...args)]:
    [let result = null;
     try{result = fn.call(context, ...args)}
     catch(e){lastError = e}
     finally{return result}] *)
Definition handler (fn : fid) (context : value) (args : list value)
  : cell -> completion * cell :=
  fun s =>
    let result := VNull in
    match apply fn context args (hworld s) with
    | (Return r, w') => (Return r, mkCell (lastError s) w')
    | (Throw e, w') => (Return result, mkCell e w')
    end.

(** Calls of one handler, one after the other: the completions, in order,
    and the cell at the end. *)
Fixpoint handler_calls (fn : fid) (context : value)
         (argss : list (list value)) (s : cell)
  : list completion * cell :=
  match argss with
  | [] => ([], s)
  | args :: rest =>
      let (c, s1) := handler fn context args s in
      let (cs, s2) := handler_calls fn context rest s1 in
      (c :: cs, s2)
  end.

(** The same calls made of [fn] itself: the completions and the world at
    the end. *)
Fixpoint direct_calls (fn : fid) (context : value)
         (argss : list (list value)) (w : W)
  : list completion * W :=
  match argss with
  | [] => ([], w)
  | args :: rest =>
      let (c, w1) := apply fn context args w in
      let (cs, w2) := direct_calls fn context rest w1 in
      (c :: cs, w2)
  end.

(** The errors among completions, in order. *)
Definition thrown (cs : list completion) : list value :=
  flat_map (fun c => match c with Throw e => [e] | Return _ => [] end) cs.

(** What a handler returns for a completion of [fn]. *)
Definition contained (c : completion) : completion :=
  match c with
  | Return r => Return r
  | Throw _ => Return VNull
  end.

End Nerf.

(** Every function of a table of zero-argument bodies replaced by
    [nerf(f)]: the world is paired with the [lastError] of each handler,
    and [VFun f] stands for the handler of [f], called without
    arguments. *)
Definition nerf_table (W : Type) (fenv : fid -> W -> completion * W)
  : fid -> W * (fid -> value) -> completion * (W * (fid -> value)) :=
  fun f ws =>
    let (c, s) :=
      handler (fun g _ _ => fenv g) f VNull [] (mkCell (snd ws f) (fst ws)) in
    (c, (hworld s,
         fun g => if Nat.eqb g f then lastError s else snd ws g)).

End Nerf.

(** ** The rate limiter [debounce] *)

Module Debounce.

(** What happens to a debounced function: it is called, at a time, with a
    receiver and arguments; or the host runs the callback of a timer, at a
    time.  The time is what [Date.now()] answers during the event. *)
Inductive event : Type :=
| Call (now : Z) (this : value) (arguments : list value)
| Fire (now : Z) (timer : nat).

Section Debounce.

(** The host's world, [fn.apply(context, args)], and the two settings. *)
Variable W : Type.
Variable fn : value -> list value -> W -> completion * W.
Variable limit : Z.
Variable asap : bool.

(** The four captured variables of one debounced function, with the
    host's timers.  [started] is undefined until the first call; [args]
    and [timing] are undefined or null when [None]; a timer's delay is
    [None] when it is not a number. *)
Record dstate : Type := mkD {
  started : option Z;
  context : value;
  args : option (list value);
  timing : option nat;
  timers : list (nat * option Z);
  next_timer : nat;
  dworld : W;
  applied : list (Z * value * list value)
}.

(** [let started, context, args, timing;] in world [w], no timer set. *)
Definition init (w : W) : dstate :=
  mkD None VUndefined None None [] 1 w [].

(** [fn.apply(context, args)] at time [now]; the call is logged. *)
Definition apply_fn (now : Z) (s : dstate) : completion * dstate :=
  let argl := match args s with Some l => l | None => [] end in
  let (c, w') := fn (context s) argl (dworld s) in
  (c, mkD (started s) (context s) (args s) (timing s) (timers s)
          (next_timer s) w' (applied s ++ [(now, context s, argl)])).

(** [timing = setTimeout(delayed, delay)] *)
Definition set_timing (delay : option Z) (s : dstate) : dstate :=
  mkD (started s) (context s) (args s) (Some (next_timer s))
      (timers s ++ [(next_timer s, delay)]) (S (next_timer s))
      (dworld s) (applied s).

(** [clearTimeout(id)] *)
Definition clearTimeout (id : nat) (s : dstate) : dstate :=
  mkD (started s) (context s) (args s) (timing s)
      (filter (fun t => negb (Nat.eqb (fst t) id)) (timers s))
      (next_timer s) (dworld s) (applied s).

(** [if(timing) clearTimeout(timing); timing = context = args = null;] *)
Definition settle_down (s : dstate) : dstate :=
  let s1 := match timing s with Some id => clearTimeout id s | None => s end in
  mkD (started s1) VNull None None (timers s1) (next_timer s1)
      (dworld s1) (applied s1).

(** [const delayed = function(){ ... }], run at time [now]. *)
Definition delayed (now : Z) (s : dstate) : completion * dstate :=
  let timeSince := option_map (fun t0 => now - t0)%Z (started s) in
  if match timeSince with Some d => (limit <=? d)%Z | None => false end
  then
    if negb asap
    then match apply_fn now s with
         | (Return _, s1) => (Return VUndefined, settle_down s1)
         | (Throw e, s1) => (Throw e, s1)
         end
    else (Return VUndefined, settle_down s)
  else
    (Return VUndefined,
     set_timing (option_map (fun d => limit - d)%Z timeSince) s).

(** The function [debounce] returns, called at time [now]. *)
Definition debounced (now : Z) (this : value) (arguments : list value)
           (s : dstate) : completion * dstate :=
  let s0 := mkD (started s) this (Some arguments) (timing s) (timers s)
                (next_timer s) (dworld s) (applied s) in
  if (limit =? 0)%Z
  then apply_fn now s0
  else
    let s1 := mkD (Some now) (context s0) (args s0) (timing s0) (timers s0)
                  (next_timer s0) (dworld s0) (applied s0) in
    match timing s1 with
    | Some _ => (Return VUndefined, s1)
    | None =>
        if asap
        then match apply_fn now s1 with
             | (Return _, s2) => (Return VUndefined, set_timing (Some limit) s2)
             | (Throw e, s2) => (Throw e, s2)
             end
        else (Return VUndefined, set_timing (Some limit) s1)
    end.

(** The host runs the callback of a timer that is set, and of no other;
    a timer that runs is no longer set. *)
Definition fire (now : Z) (id : nat) (s : dstate) : completion * dstate :=
  if existsb (fun t => Nat.eqb (fst t) id) (timers s)
  then delayed now (clearTimeout id s)
  else (Return VUndefined, s).

Definition step (ev : event) (s : dstate) : completion * dstate :=
  match ev with
  | Call now this arguments => debounced now this arguments s
  | Fire now id => fire now id s
  end.

(** The state after a sequence of events, the first event first. *)
Definition after (evs : list event) (s : dstate) : dstate :=
  fold_left (fun s ev => snd (step ev s)) evs s.

(** The calls among events, in order. *)
Definition calls_of (evs : list event) : list (Z * value * list value) :=
  flat_map (fun ev => match ev with
                      | Call now this arguments => [(now, this, arguments)]
                      | Fire _ _ => []
                      end) evs.

(** The latest call among events. *)
Definition last_call (evs : list event) : option (Z * value * list value) :=
  last (map Some (calls_of evs)) None.

(** At most one timer is set, and [timing] holds it. *)
Definition tidy (s : dstate) : Prop :=
  timers s = []
  \/ exists id delay, timers s = [(id, delay)] /\ timing s = Some id.

(** While a timer is set, [started], [context] and [args] are those of the
    latest call; before any call no timer is set. *)
Definition follows (evs : list event) (s : dstate) : Prop :=
  match last_call evs with
  | Some (t0, this, arguments) =>
      timers s <> [] ->
      started s = Some t0 /\ context s = this /\ args s = Some arguments
  | None => timers s = []
  end.

(** With no timer set, [timing] is empty. *)
Definition idle (s : dstate) : Prop :=
  timers s = [] -> timing s = None.

End Debounce.

End Debounce.

(** ** Numbers and points *)

Module Geometry.

(** [function clamp(input, min = 0, max = 1)], on integers: [Math.min] and
    [Math.max] compare their arguments and compute nothing else. *)
Definition clamp (input : Z) (min max : option Z) : Z :=
  Z.min (Z.max input (match min with Some lo => lo | None => 0 end))
        (match max with Some hi => hi | None => 1 end).

Section DeCasteljau.

(** The host's numbers with [+], [-] and [*], whatever they compute, and
    the number [0.5]. *)
Variable num : Type.
Variables add sub mul : num -> num -> num.
Variable half : num.

Definition point : Type := num * num.

(** [[a[0] + ((b[0] - a[0]) * position),
      a[1] + ((b[1] - a[1]) * position)]] *)
Definition between (position : num) (a b : point) : point :=
  (add (fst a) (mul (sub (fst b) (fst a)) position),
   add (snd a) (mul (sub (snd b) (snd a)) position)).

(** [for(let i = 0; i < num; ++i){ a = points[i]; b = points[i+1];
    midpoints.push([...]); }]: the midpoints pushed, and [a] and [b] as the
    loop leaves them. *)
Fixpoint for_loop (position : num) (points : list point)
         (a b : option point)
  : list point * option point * option point :=
  match points with
  | p :: ((q :: _) as rest) =>
      let '(midpoints, a', b') := for_loop position rest (Some p) (Some q) in
      (between position p q :: midpoints, a', b')
  | _ => ([], a, b)
  end.

(** [while(points.length > 1){ ...; points = midpoints; midpoints = []; }]
    for at most [fuel] turns. *)
Fixpoint while_loop (fuel : nat) (position : num) (points : list point)
         (a b : option point)
  : list point * option point * option point :=
  match fuel with
  | 0 => (points, a, b)
  | S fuel' =>
      if 1 <? length points
      then
        let '(midpoints, a', b') := for_loop position points a b in
        while_loop fuel' position midpoints a' b'
      else (points, a, b)
  end.

(** [function deCasteljau(points, position = 0.5)]; an entry that is
    undefined is [None].  A turn of the loop shortens [points], so its
    length is enough fuel ([while_loop_fuel] below). *)
Definition deCasteljau (points : list point) (position : option num)
  : list (option point) :=
  let position := match position with Some t => t | None => half end in
  let '(points', a, b) :=
    while_loop (length points) position points None None in
  [hd_error points'; a; b].

(** One level of the construction: the points between neighbours. *)
Definition level (position : num) (points : list point) : list point :=
  fst (fst (for_loop position points None None)).

End DeCasteljau.

End Geometry.

(** ** Sample hosts for the utilities *)

Module Samples.

(** A table without promises: [0]: [() => 2]; [1]: [() => { throw "x"; }];
    any other: [() => 99].  The world counts the calls. *)
Definition sync_table (f : fid) (counter : nat) : completion * nat :=
  match f with
  | 0 => (Return (VNum 2), S counter)
  | 1 => (Throw (VStr "x"), S counter)
  | _ => (Return (VNum 99), S counter)
  end.

(** The same functions, called with a receiver and arguments. *)
Definition sync_apply (f : fid) (_ : value) (_ : list value)
  : nat -> completion * nat :=
  sync_table f.

(** No handler has recorded an error. *)
Definition no_errors : fid -> value := fun _ => VNull.

(** A function that counts its calls, and one that also throws. *)
Definition counting (_ : value) (_ : list value) (counter : nat)
  : completion * nat :=
  (Return VUndefined, S counter).

Definition throwing (_ : value) (_ : list value) (counter : nat)
  : completion * nat :=
  (Throw (VStr "boom"), S counter).

(** The four control points of a semicircle of about 100 by 50:
    [[0, 50], [0, -15], [100, -15], [100, 50]], over the rationals. *)
Definition semicircle : list (QArith_base.Q * QArith_base.Q) :=
  map (fun xy => (QArith_base.inject_Z (fst xy), QArith_base.inject_Z (snd xy)))
      [(0, 50); (0, -15); (100, -15); (100, 50)]%Z.

End Samples.

(** ** The coordinator *)

Section Chain.

(** The host's mutable world, and the bodies of its functions. *)
Variable W : Type.
Variable fenv : fid -> W -> completion * W.

(** The host as a run sees it: the world, and the log of the functions
    invoked so far (most recent last). *)
Record host : Type := mkHost {
  world : W;
  calls : list fid
}.

(** The state one call of [chain] works on: its two captured locals and
    the host. *)
Record state : Type := mkState {
  results : list value;
  rejection : value;
  env : host
}.

(** [f()]: the call is logged and the body runs on the world. *)
Definition call (f : fid) (h : host) : completion * host :=
  let (c, w') := fenv f (world h) in
  (c, mkHost w' (calls h ++ [f])).

Definition M (A : Type) : Type := state -> A * state.

Definition ret {A} (a : A) : M A := fun s => (a, s).

Definition bind {A B} (m : M A) (k : A -> M B) : M B :=
  fun s => let (a, s') := m s in k a s'.

Notation "x <- m ;; k" := (bind m (fun x => k))
  (at level 61, m at next level, right associativity).
Notation "m ;; k" := (bind m (fun _ => k))
  (at level 61, right associativity).

(** [results.push(x)] *)
Definition push (x : value) : M unit :=
  fun s => (tt, mkState (results s ++ [x]) (rejection s) (env s)).

(** [results.shift()] *)
Definition shift : M unit :=
  fun s => (tt, mkState (tl (results s)) (rejection s) (env s)).

Definition get_results : M (list value) := fun s => (results s, s).

Definition get_rejection : M value := fun s => (rejection s, s).

Definition set_rejection (r : value) : M unit :=
  fun s => (tt, mkState (results s) r (env s)).

Definition invoke (f : fid) : M completion :=
  fun s =>
    let (c, h') := call f (env s) in
    (c, mkState (results s) (rejection s) h').

(** A promise whose reactions are still to run. *)
Definition chained : Type := state -> outcome * state.

(** A promise object as the head of a sequence of reactions. *)
Definition of_value (v : value) : chained := fun s => (adopt v, s).

(** [p.then(f)] *)
Definition then_ (p : chained) (f : value -> M completion) : chained :=
  fun s =>
    match p s with
    | (Fulfilled v, s1) => let (c, s2) := f v s1 in (settle c, s2)
    | (Rejected e, s1) => (Rejected e, s1)
    | (Pending, s1) => (Pending, s1)
    end.

(** [p.catch(g)] *)
Definition catch_ (p : chained) (g : value -> M completion) : chained :=
  fun s =>
    match p s with
    | (Rejected e, s1) => let (c, s2) := g e s1 in (settle c, s2)
    | (Fulfilled v, s1) => (Fulfilled v, s1)
    | (Pending, s1) => (Pending, s1)
    end.

(** [if(1 === values.length && Array.isArray(values[0]))
       values = [...values[0]];]: a lone argument that is an array is
    replaced by its elements. *)
Definition spread (values : list value) : list value :=
  match values with
  | [VArray elems] => elems
  | _ => values
  end.

(** The reaction [result => { results.push(result);
    return "function" === typeof value ? value() : value; }] *)
Definition on_fulfilled (value result : value) : M completion :=
  push result ;;
  match value with
  | VFun f => invoke f
  | _ => ret (Return value)
  end.

(** [null == error ? true : error] *)
Definition noted (error : value) : value :=
  if loosely_null error then VBool true else error.

(** The reaction [error => { if(null === rejection)
    rejection = null == error ? true : error;
    return Promise.reject(error); }] *)
Definition on_rejected (error : value) : M completion :=
  r <- get_rejection ;;
  (if is_null r then set_rejection (noted error) else ret tt) ;;
  ret (Return (Promise_reject error)).

(** The last reaction [result => { results.push(result); results.shift();
    return null !== rejection ? Promise.reject(rejection)
                              : Promise.resolve(results); }] *)
Definition on_final (result : value) : M completion :=
  push result ;;
  shift ;;
  r <- get_rejection ;;
  if negb (is_null r)
  then ret (Return (Promise_reject r))
  else rs <- get_results ;; ret (Return (Promise_resolve (VArray rs))).

(** One turn of the loop: [promise.then(...).catch(...)]. *)
Definition stage (promise : chained) (value : value) : chained :=
  catch_ (then_ promise (on_fulfilled value)) on_rejected.

(** [let promise = Promise.resolve(); for(const value of values) ...] *)
Definition chain_loop (values : list value) : chained :=
  fold_left stage values (of_value (Promise_resolve VUndefined)).

(** [function chain(...values)] *)
Definition chain (values : list value) : chained :=
  then_ (chain_loop (spread values)) on_final.

(** The host at the time of the call, with an empty log. *)
Definition host0 (w : W) : host := mkHost w [].

(** [let rejection = null; const results = [];] in world [w]. *)
Definition fresh (w : W) : state := mkState [] VNull (host0 w).

(** The settled state of the promise that [chain(...values)] returns when
    it is called in world [w], and the state the run ends in. *)
Definition run (values : list value) (w : W) : outcome * state :=
  chain values (fresh w).

(** The value of [rejection] once the reactions of the first [k] turns of
    the loop have run.  The reactions of later turns run after these
    ([chain_loop_app] below), so this is the value the run goes through. *)
Definition rejection_after (k : nat) (values : list value) (w : W) : value :=
  rejection (snd (chain_loop (firstn k (spread values)) (fresh w))).

(** [rejection] along a run: entry [k] is its value after [k] turns of the
    loop, for [k] from 0 to the number of steps; the last entry is its
    value when the run is over. *)
Definition rejection_trace (values : list value) (w : W) : list value :=
  map (fun k => rejection_after k values w)
      (seq 0 (S (length (spread values))))
  ++ [rejection (snd (run values w))].

(** ** What the steps do, taken one at a time

    The reference the coordinator is compared with: a step evaluated on
    its own, and a sequence of steps evaluated in order for as long as
    each one succeeds. *)

(** A Deferred step is invoked and its completion settles the step; any
    other step is resolved as a value. *)
Definition produce (v : value) (h : host) : outcome * host :=
  match v with
  | VFun f => let (c, h') := call f h in (settle c, h')
  | _ => (adopt v, h)
  end.

(** The values of the steps, in order, when every one of them succeeds. *)
Fixpoint produce_all (values : list value) (h : host)
  : option (list value * host) :=
  match values with
  | [] => Some ([], h)
  | v :: rest =>
      match produce v h with
      | (Fulfilled r, h1) =>
          match produce_all rest h1 with
          | Some (rs, h2) => Some (r :: rs, h2)
          | None => None
          end
      | _ => None
      end
  end.

(** The callables among the steps, in step order. *)
Definition callables (values : list value) : list fid :=
  flat_map (fun v => match v with VFun f => [f] | _ => [] end) values.

(** ** One turn of the loop *)

Lemma stage_unfold (p : chained) (v : value) (s : state) :
  stage p v s =
  match p s with
  | (Fulfilled r, s1) =>
      match produce v (env s1) with
      | (Fulfilled x, h) =>
          (Fulfilled x, mkState (results s1 ++ [r]) (rejection s1) h)
      | (Rejected e, h) =>
          (Rejected e,
           mkState (results s1 ++ [r])
                   (if is_null (rejection s1) then noted e else rejection s1)
                   h)
      | (Pending, h) =>
          (Pending, mkState (results s1 ++ [r]) (rejection s1) h)
      end
  | (Rejected e, s1) =>
      (Rejected e,
       mkState (results s1)
               (if is_null (rejection s1) then noted e else rejection s1)
               (env s1))
  | (Pending, s1) => (Pending, s1)
  end.
Proof.
  unfold stage, catch_, then_.
  destruct (p s) as [[r | e | ] s1]; [ | | reflexivity ].
  - unfold on_fulfilled, on_rejected, produce, bind, push, invoke, ret,
      get_rejection, set_rejection.
    destruct v as [ | | b | n | str | l | f | [x | e | ]];
      cbn [results rejection env settle adopt Promise_reject];
      try (destruct (call f (env s1)) as [[x | e] h];
           cbn [results rejection env settle adopt Promise_reject]);
      try (destruct (adopt x) as [y | e | ];
           cbn [results rejection env settle adopt Promise_reject]);
      try reflexivity;
      destruct (is_null (rejection s1)); reflexivity.
  - unfold on_rejected, bind, get_rejection, set_rejection, ret.
    destruct s1 as [rs rj h]; cbn [results rejection env].
    destruct (is_null rj); reflexivity.
Qed.

Lemma noted_not_null (e : value) : is_null (noted e) = false.
Proof. destruct e; reflexivity. Qed.

Lemma last_cons (x d : value) (l : list value) :
  last (x :: l) d = last l x.
Proof.
  revert x d; induction l as [ | y l IH]; intros x d; [ reflexivity | ].
  change (last (x :: y :: l) d) with (last (y :: l) d).
  rewrite IH. symmetry. apply IH.
Qed.

Lemma removelast_last_cons (r : value) (rs : list value) :
  removelast (r :: rs) ++ [last rs r] = r :: rs.
Proof.
  rewrite <- (last_cons r r rs). symmetry.
  apply app_removelast_last. discriminate.
Qed.

(** ** The loop *)

(** Turns attached later run after the reactions attached before. *)
Lemma chain_loop_app (pre post : list value) :
  chain_loop (pre ++ post) = fold_left stage post (chain_loop pre).
Proof. unfold chain_loop. apply fold_left_app. Qed.

(** While the steps succeed the promise stays fulfilled with the value of
    the last step, [results] lags one value behind, and [rejection] is
    not touched. *)
Lemma loop_fulfilled (values : list value) :
  forall (p : chained) (s s1 : state) (r : value) rs h2,
    p s = (Fulfilled r, s1) ->
    produce_all values (env s1) = Some (rs, h2) ->
    fold_left stage values p s =
    (Fulfilled (last rs r),
     mkState (results s1 ++ removelast (r :: rs)) (rejection s1) h2).
Proof.
  induction values as [ | v rest IH]; intros p s s1 r rs h2 Hp Hall.
  - cbn in Hall. injection Hall as <- <-. cbn.
    rewrite Hp, app_nil_r. destruct s1; reflexivity.
  - cbn [produce_all] in Hall.
    destruct (produce v (env s1)) as [[x | e | ] h1] eqn:Hv; try discriminate.
    destruct (produce_all rest h1) as [[rs' h2'] | ] eqn:Hrest;
      try discriminate.
    injection Hall as <- <-.
    cbn [fold_left].
    rewrite (IH (stage p v) s
                (mkState (results s1 ++ [r]) (rejection s1) h1) x rs' h2').
    + rewrite last_cons. cbn [results rejection].
      rewrite <- app_assoc. reflexivity.
    + rewrite stage_unfold, Hp, Hv. reflexivity.
    + exact Hrest.
Qed.

(** Once the promise is rejected and the failure recorded, every later
    turn leaves the promise and the state as they are. *)
Lemma loop_rejected (values : list value) :
  forall (p : chained) (s s1 : state) (e : value),
    p s = (Rejected e, s1) ->
    is_null (rejection s1) = false ->
    fold_left stage values p s = (Rejected e, s1).
Proof.
  induction values as [ | v rest IH]; intros p s s1 e Hp Hrec;
    [ exact Hp | ].
  cbn [fold_left]. apply IH; [ | exact Hrec ].
  rewrite stage_unfold, Hp, Hrec. destruct s1; reflexivity.
Qed.

(** A promise that never settles runs no later reaction. *)
Lemma loop_pending (values : list value) :
  forall (p : chained) (s s1 : state),
    p s = (Pending, s1) ->
    fold_left stage values p s = (Pending, s1).
Proof.
  induction values as [ | v rest IH]; intros p s s1 Hp; [ exact Hp | ].
  cbn [fold_left]. apply IH. rewrite stage_unfold, Hp. reflexivity.
Qed.

(** The first step that fails rejects the promise with its error and
    ends the run's effects. *)
Lemma loop_first_failure (pre post : list value) (v : value) :
  forall (p : chained) (s s1 : state) (r e : value) rs h1 h2,
    p s = (Fulfilled r, s1) ->
    produce_all pre (env s1) = Some (rs, h1) ->
    produce v h1 = (Rejected e, h2) ->
    fold_left stage (pre ++ v :: post) p s =
    (Rejected e,
     mkState (results s1 ++ r :: rs)
             (if is_null (rejection s1) then noted e else rejection s1)
             h2).
Proof.
  intros p s s1 r e rs h1 h2 Hp Hpre Hv.
  rewrite fold_left_app. cbn [fold_left].
  apply loop_rejected.
  - rewrite stage_unfold. erewrite loop_fulfilled by eassumption.
    cbn [env results rejection]. rewrite Hv.
    rewrite <- app_assoc, removelast_last_cons. reflexivity.
  - cbn [rejection].
    destruct (is_null (rejection s1)) eqn:Hn;
      [ apply noted_not_null | exact Hn ].
Qed.

(** The first step that never settles stops the run there. *)
Lemma loop_stuck (pre post : list value) (v : value) :
  forall (p : chained) (s s1 : state) (r : value) rs h1 h2,
    p s = (Fulfilled r, s1) ->
    produce_all pre (env s1) = Some (rs, h1) ->
    produce v h1 = (Pending, h2) ->
    fold_left stage (pre ++ v :: post) p s =
    (Pending, mkState (results s1 ++ r :: rs) (rejection s1) h2).
Proof.
  intros p s s1 r rs h1 h2 Hp Hpre Hv.
  rewrite fold_left_app. cbn [fold_left].
  apply loop_pending.
  rewrite stage_unfold. erewrite loop_fulfilled by eassumption.
  cbn [env results rejection]. rewrite Hv.
  rewrite <- app_assoc, removelast_last_cons. reflexivity.
Qed.

(** ** The steps taken one at a time *)

(** Either every step succeeds, or there is a first step that does not. *)
Lemma produce_all_cases (values : list value) :
  forall h,
    (exists rs h', produce_all values h = Some (rs, h'))
    \/ (exists pre v post rs h1 o h2,
           values = pre ++ v :: post
           /\ produce_all pre h = Some (rs, h1)
           /\ produce v h1 = (o, h2)
           /\ (forall x, o <> Fulfilled x)).
Proof.
  induction values as [ | v rest IH]; intros h.
  - left. exists [], h. reflexivity.
  - destruct (produce v h) as [o h1] eqn:Hv.
    assert (Hstop : (forall x, o <> Fulfilled x) ->
                    exists pre v0 post rs h1' o' h2,
                      v :: rest = pre ++ v0 :: post
                      /\ produce_all pre h = Some (rs, h1')
                      /\ produce v0 h1' = (o', h2)
                      /\ (forall x, o' <> Fulfilled x)).
    { intros Ho. exists [], v, rest, [], h, o, h1. auto. }
    destruct o as [x | e | ];
      [ | right; apply Hstop; discriminate
        | right; apply Hstop; discriminate ].
    destruct (IH h1) as [(rs & h' & Hall)
                        | (pre & v0 & post & rs & h1' & o' & h2
                           & -> & Hpre & Hv0 & Ho')].
    + left. exists (x :: rs), h'. cbn. rewrite Hv, Hall. reflexivity.
    + right. exists (v :: pre), v0, post, (x :: rs), h1', o', h2.
      repeat split; auto.
      cbn. rewrite Hv, Hpre. reflexivity.
Qed.

(** A step invokes its own callable, once, and nothing else. *)
Lemma produce_calls (v : value) (h h' : host) (o : outcome) :
  produce v h = (o, h') -> calls h' = calls h ++ callables [v].
Proof.
  unfold produce, call.
  destruct v; try (intros [= _ <-]; cbn; symmetry; apply app_nil_r).
  destruct (fenv f (world h)) as [c w']. intros [= _ <-]. reflexivity.
Qed.

Lemma callables_app (l1 l2 : list value) :
  callables (l1 ++ l2) = callables l1 ++ callables l2.
Proof. apply flat_map_app. Qed.

Lemma produce_all_calls (values : list value) :
  forall h rs h',
    produce_all values h = Some (rs, h') ->
    calls h' = calls h ++ callables values.
Proof.
  induction values as [ | v rest IH]; intros h rs h' Hall.
  - cbn in Hall. injection Hall as _ <-. symmetry. apply app_nil_r.
  - cbn [produce_all] in Hall.
    destruct (produce v h) as [[x | e | ] h1] eqn:Hv; try discriminate.
    destruct (produce_all rest h1) as [[rs' h2] | ] eqn:Hrest;
      try discriminate.
    injection Hall as _ <-.
    rewrite (IH _ _ _ Hrest), (produce_calls _ _ Hv).
    change (v :: rest) with ([v] ++ rest).
    rewrite callables_app, app_assoc. reflexivity.
Qed.

Lemma produce_all_length (values : list value) :
  forall h rs h',
    produce_all values h = Some (rs, h') -> length rs = length values.
Proof.
  induction values as [ | v rest IH]; intros h rs h' Hall.
  - cbn in Hall. injection Hall as <- _. reflexivity.
  - cbn [produce_all] in Hall.
    destruct (produce v h) as [[x | e | ] h1] eqn:Hv; try discriminate.
    destruct (produce_all rest h1) as [[rs' h2] | ] eqn:Hrest;
      try discriminate.
    injection Hall as <- _. cbn. f_equal. eapply IH, Hrest.
Qed.

(** A plain value is what it produces, whatever the host. *)
Lemma produce_plain (v : value) (h : host) :
  plain v = true -> produce v h = (Fulfilled v, h).
Proof. destruct v; try discriminate; reflexivity. Qed.

Lemma produce_all_plain (values : list value) (h : host) :
  forallb plain values = true -> produce_all values h = Some (values, h).
Proof.
  induction values as [ | v rest IH]; [ reflexivity | ].
  cbn [forallb]. intros [Hv Hrest]%andb_prop.
  cbn [produce_all]. rewrite (produce_plain _ _ Hv), (IH Hrest).
  reflexivity.
Qed.

Lemma produce_all_firstn (values : list value) :
  forall k h rs h',
    produce_all values h = Some (rs, h') ->
    exists h'', produce_all (firstn k values) h = Some (firstn k rs, h'').
Proof.
  induction values as [ | v rest IH]; intros k h rs h' Hall.
  - cbn in Hall. injection Hall as <- <-.
    exists h. rewrite !firstn_nil. reflexivity.
  - cbn [produce_all] in Hall.
    destruct (produce v h) as [[x | e | ] h1] eqn:Hv; try discriminate.
    destruct (produce_all rest h1) as [[rs' h2] | ] eqn:Hrest;
      try discriminate.
    injection Hall as <- <-.
    destruct k as [ | k]; [ exists h; reflexivity | ].
    destruct (IH k _ _ _ Hrest) as [h'' Hk].
    exists h''. cbn. rewrite Hv, Hk. reflexivity.
Qed.

(** When all the steps succeed, the value at a position is the one the
    step at that position produced, on the host the steps before it
    left. *)
Lemma produce_all_nth (values : list value) :
  forall h rs h' i v,
    produce_all values h = Some (rs, h') ->
    nth_error values i = Some v ->
    exists before hi r hi',
      produce_all (firstn i values) h = Some (before, hi)
      /\ produce v hi = (Fulfilled r, hi')
      /\ nth_error rs i = Some r.
Proof.
  induction values as [ | v0 rest IH]; intros h rs h' i v Hall Hi.
  - destruct i; discriminate.
  - cbn [produce_all] in Hall.
    destruct (produce v0 h) as [[x | e | ] h1] eqn:Hv; try discriminate.
    destruct (produce_all rest h1) as [[rs' h2] | ] eqn:Hrest;
      try discriminate.
    injection Hall as <- <-.
    destruct i as [ | i].
    + cbn in Hi. injection Hi as <-.
      exists [], h, x, h1. repeat split; assumption.
    + cbn in Hi.
      destruct (IH _ _ _ _ _ Hrest Hi)
        as (before & hi & r & hi' & Hb & Hr & Hn).
      exists (x :: before), hi, r, hi'. cbn. rewrite Hv, Hb. auto.
Qed.

(** ** The captured [rejection] along a run *)

Lemma is_null_false (r : value) : is_null r = false <-> r <> VNull.
Proof.
  destruct r; cbn; split; congruence.
Qed.

(** A turn of the loop leaves a recorded failure as it is. *)
Lemma stage_keeps_rejection (p : chained) (v : value) (s : state) :
  is_null (rejection (snd (p s))) = false ->
  rejection (snd (stage p v s)) = rejection (snd (p s)).
Proof.
  rewrite stage_unfold.
  destruct (p s) as [[r | e | ] s1]; cbn [snd]; intros Hrec;
    [ destruct (produce v (env s1)) as [[x | e | ] h] | | ];
    cbn [snd rejection]; rewrite ?Hrec; reflexivity.
Qed.

Lemma loop_keeps_rejection (values : list value) :
  forall (p : chained) (s : state),
    is_null (rejection (snd (p s))) = false ->
    rejection (snd (fold_left stage values p s)) = rejection (snd (p s)).
Proof.
  induction values as [ | v rest IH]; intros p s Hrec; [ reflexivity | ].
  cbn [fold_left]. rewrite IH; rewrite stage_keeps_rejection; auto.
Qed.

(** The last reaction never assigns [rejection]. *)
Lemma final_keeps_rejection (p : chained) (s : state) :
  rejection (snd (then_ p on_final s)) = rejection (snd (p s)).
Proof.
  unfold then_. destruct (p s) as [[r | e | ] s1]; try reflexivity.
  unfold on_final, bind, push, shift, get_rejection, get_results, ret.
  cbn [rejection results env].
  destruct (negb (is_null (rejection s1))); reflexivity.
Qed.

(** Entry [k] of the trace is the value of [rejection] once the
    reactions of the first [k] turns have run. *)
Lemma rejection_trace_nth
      (values : list value) (w : W) (k : nat) (r : value) :
  nth_error (rejection_trace values w) k = Some r ->
  r = rejection (snd (chain_loop (firstn k (spread values)) (fresh w))).
Proof.
  unfold rejection_trace.
  set (f := fun k => rejection_after k values w).
  set (n := length (spread values)).
  intros Hk.
  destruct (Nat.lt_ge_cases k (S n)) as [Hlt | Hge].
  - rewrite nth_error_app1 in Hk by (rewrite length_map, length_seq; exact Hlt).
    rewrite nth_error_map, nth_error_seq in Hk.
    destruct (Nat.ltb_spec k (S n)) as [ _ | Hle ]; [ | lia ].
    cbn in Hk. injection Hk as <-. reflexivity.
  - rewrite nth_error_app2 in Hk by (rewrite length_map, length_seq; exact Hge).
    rewrite length_map, length_seq in Hk.
    destruct (k - S n) as [ | m] eqn:Hm;
      [ | destruct m; discriminate ].
    cbn in Hk. injection Hk as <-.
    unfold run, chain. rewrite final_keeps_rejection.
    rewrite firstn_all2 by (fold n; lia). reflexivity.
Qed.

Lemma chain_loop_firstn (values : list value) (i j : nat) :
  i <= j ->
  chain_loop (firstn j values)
  = fold_left stage (skipn i (firstn j values)) (chain_loop (firstn i values)).
Proof.
  intros Hij. rewrite <- chain_loop_app.
  rewrite <- (firstn_skipn i (firstn j values)) at 1.
  rewrite firstn_firstn, Nat.min_l by exact Hij. reflexivity.
Qed.

(** ** Whole runs *)

Lemma run_all_succeed (values rs : list value) (w : W) (h' : host) :
  produce_all (spread values) (host0 w) = Some (rs, h') ->
  run values w = (Fulfilled (VArray rs), mkState rs VNull h').
Proof.
  intros Hall. unfold run, chain, then_, chain_loop.
  erewrite loop_fulfilled; [ | reflexivity | exact Hall ].
  unfold on_final, bind, push, shift, get_rejection, get_results, ret.
  cbn [results rejection env fresh app is_null negb].
  rewrite removelast_last_cons. reflexivity.
Qed.

Lemma run_first_failure (values pre post rs : list value) (v e : value)
      (w : W) (h1 h2 : host) :
  spread values = pre ++ v :: post ->
  produce_all pre (host0 w) = Some (rs, h1) ->
  produce v h1 = (Rejected e, h2) ->
  run values w = (Rejected e, mkState (VUndefined :: rs) (noted e) h2).
Proof.
  intros Hsplit Hpre Hv. unfold run, chain, then_, chain_loop.
  rewrite Hsplit.
  erewrite loop_first_failure; [ | reflexivity | exact Hpre | exact Hv ].
  reflexivity.
Qed.

Lemma run_stuck (values pre post rs : list value) (v : value)
      (w : W) (h1 h2 : host) :
  spread values = pre ++ v :: post ->
  produce_all pre (host0 w) = Some (rs, h1) ->
  produce v h1 = (Pending, h2) ->
  run values w = (Pending, mkState (VUndefined :: rs) VNull h2).
Proof.
  intros Hsplit Hpre Hv. unfold run, chain, then_, chain_loop.
  rewrite Hsplit.
  erewrite loop_stuck; [ | reflexivity | exact Hpre | exact Hv ].
  reflexivity.
Qed.

(** ** Properties of the coordinator *)

(** C1, as amended: for every input sequence whose steps are all plain
    values (neither callable nor a promise), [chain] fulfils with a
    result list equal to the input sequence, in the same order. *)
Theorem plain_values_returned (values : list value) (w : W) :
  forallb plain (spread values) = true ->
  fst (run values w) = Fulfilled (VArray (spread values)).
Proof.
  intros Hplain.
  erewrite run_all_succeed; [ reflexivity | ].
  apply produce_all_plain, Hplain.
Qed.

(** C2: when step k is a Deferred that fails and all the steps before it
    succeed, the host is left as it was when step k failed, the calls
    made by the run are exactly those of the callables among steps 1..k,
    and so no callable of a later step is invoked on account of that
    step. *)
Theorem later_steps_not_invoked
        (values pre post rs : list value) (f : fid) (e : value)
        (w : W) (h1 h2 : host) :
  spread values = pre ++ VFun f :: post ->
  produce_all pre (host0 w) = Some (rs, h1) ->
  produce (VFun f) h1 = (Rejected e, h2) ->
  env (snd (run values w)) = h2
  /\ calls (env (snd (run values w))) = callables (pre ++ [VFun f])
  /\ forall g, In (VFun g) post ->
               ~ In g (callables (pre ++ [VFun f])) ->
               ~ In g (calls (env (snd (run values w)))).
Proof.
  intros Hsplit Hpre Hf.
  erewrite run_first_failure by eassumption. cbn [snd env].
  assert (Hcalls : calls h2 = callables (pre ++ [VFun f])).
  { rewrite (produce_calls _ _ Hf), (produce_all_calls _ _ Hpre).
    rewrite callables_app. reflexivity. }
  split; [ reflexivity | split; [ exact Hcalls | ] ].
  intros g _ Hfresh. rewrite Hcalls. exact Hfresh.
Qed.

(** C3: when some step fails, the steps before it having succeeded, the
    outcome of [chain] is a rejection with that step's error, whatever
    the later steps are; the outcome carries the error alone. *)
Theorem first_failure_surfaces
        (values pre post rs : list value) (v e : value)
        (w : W) (h1 h2 : host) :
  spread values = pre ++ v :: post ->
  produce_all pre (host0 w) = Some (rs, h1) ->
  produce v h1 = (Rejected e, h2) ->
  fst (run values w) = Rejected e.
Proof.
  intros Hsplit Hpre Hv.
  erewrite run_first_failure by eassumption. reflexivity.
Qed.

(** C5: [chain(a, b, c)] and [chain([a, b, c])] have the same outcome
    and leave the same state. *)
Theorem variadic_and_array_agree (a b c : value) (w : W) :
  run [a; b; c] w = run [VArray [a; b; c]] w.
Proof.
  unfold run, chain.
  assert (Hspread : spread [a; b; c] = spread [VArray [a; b; c]])
    by (destruct a; reflexivity).
  rewrite Hspread. reflexivity.
Qed.

(** C6: for an empty input sequence, given as no argument or as an empty
    array, [chain] fulfils with an empty result list, without a call and
    without a change to the world. *)
Theorem empty_input_fulfils (w : W) :
  run [] w = (Fulfilled (VArray []), fresh w)
  /\ run [VArray []] w = (Fulfilled (VArray []), fresh w).
Proof. split; reflexivity. Qed.

(** C7: when every step of a sequence of values and callables succeeds,
    [chain] fulfils with a list that has, at each position, the value the
    step at that position produced when its turn came. *)
Theorem results_follow_input_order
        (values rs : list value) (w : W) (h' : host) :
  produce_all (spread values) (host0 w) = Some (rs, h') ->
  fst (run values w) = Fulfilled (VArray rs)
  /\ length rs = length (spread values)
  /\ forall i v,
       nth_error (spread values) i = Some v ->
       exists before hi r hi',
         produce_all (firstn i (spread values)) (host0 w) = Some (before, hi)
         /\ produce v hi = (Fulfilled r, hi')
         /\ nth_error rs i = Some r.
Proof.
  intros Hall. split; [ | split ].
  - erewrite run_all_succeed by exact Hall. reflexivity.
  - eapply produce_all_length, Hall.
  - intros i v Hi. eapply produce_all_nth; eassumption.
Qed.

(** C8, as amended: a step that is neither callable nor a promise never
    produces a failure; whenever [chain] rejects, the error is that of a
    first failing step, and this step is a callable whose invocation
    failed or a promise that rejected. *)
Theorem failure_never_from_plain_value
        (values : list value) (w : W) (e : value) :
  fst (run values w) = Rejected e ->
  exists pre v post rs h1 h2,
    spread values = pre ++ v :: post
    /\ produce_all pre (host0 w) = Some (rs, h1)
    /\ produce v h1 = (Rejected e, h2)
    /\ plain v = false.
Proof.
  intros Hrun.
  destruct (produce_all_cases (spread values) (host0 w))
    as [(rs & h' & Hall)
       | (pre & v & post & rs & h1 & o & h2 & Hsplit & Hpre & Hv & Ho)].
  - erewrite run_all_succeed in Hrun by exact Hall. discriminate.
  - destruct o as [x | e' | ].
    + contradiction (Ho x). reflexivity.
    + erewrite run_first_failure in Hrun by eassumption.
      injection Hrun as ->.
      exists pre, v, post, rs, h1, h2. repeat split; try assumption.
      destruct (plain v) eqn:Hplain; [ | reflexivity ].
      rewrite (produce_plain v h1 Hplain) in Hv. discriminate.
    + erewrite run_stuck in Hrun by eassumption. discriminate.
Qed.

(** C9: along a run, a value of [rejection] other than null is kept by
    every later reaction, up to the end of the run; and when a step
    fails, the steps before it having succeeded, [rejection] is null
    until that step's turn and holds what was recorded for that step's
    error from then on. *)
Theorem rejection_recorded_once (values : list value) (w : W) :
  (forall i j r r',
      i <= j ->
      nth_error (rejection_trace values w) i = Some r ->
      r <> VNull ->
      nth_error (rejection_trace values w) j = Some r' ->
      r' = r)
  /\ (forall pre v post rs h1 e h2 k r,
         spread values = pre ++ v :: post ->
         produce_all pre (host0 w) = Some (rs, h1) ->
         produce v h1 = (Rejected e, h2) ->
         nth_error (rejection_trace values w) k = Some r ->
         r = if k <=? length pre then VNull else noted e).
Proof.
  split.
  - intros i j r r' Hij Hi Hr Hj.
    apply rejection_trace_nth in Hi, Hj. subst r r'.
    rewrite (chain_loop_firstn (spread values) Hij).
    apply loop_keeps_rejection, is_null_false, Hr.
  - intros pre v post rs h1 e h2 k r Hsplit Hpre Hv Hk.
    apply rejection_trace_nth in Hk. subst r. rewrite Hsplit.
    destruct (Nat.leb_spec k (length pre)) as [Hle | Hgt].
    + rewrite firstn_app.
      replace (k - length pre) with 0 by lia.
      rewrite firstn_0, app_nil_r.
      destruct (produce_all_firstn pre k _ Hpre) as [h'' Hk].
      unfold chain_loop.
      erewrite loop_fulfilled; [ | reflexivity | exact Hk ].
      reflexivity.
    + rewrite firstn_app, firstn_all2 by lia.
      destruct (k - length pre) as [ | m] eqn:Hm; [ lia | ].
      cbn [firstn]. unfold chain_loop.
      erewrite loop_first_failure;
        [ | reflexivity | exact Hpre | exact Hv ].
      reflexivity.
Qed.

(** C10: whenever the last reaction runs, that is, whenever the promise
    the loop built is fulfilled, [rejection] is still null and the
    reaction resolves with [results]; and when that promise is rejected
    the last reaction is skipped, so that [chain] rejects with the same
    error and the state is left as it is. *)
Theorem final_reject_branch_unreachable (values : list value) (w : W) :
  (forall result s,
      chain_loop (spread values) (fresh w) = (Fulfilled result, s) ->
      rejection s = VNull
      /\ exists s',
          on_final result s
          = (Return (Promise_resolve (VArray (results s'))), s'))
  /\ (forall e s,
         chain_loop (spread values) (fresh w) = (Rejected e, s) ->
         run values w = (Rejected e, s)).
Proof.
  split.
  - intros result s Hloop.
    assert (Hnull : rejection s = VNull).
    { destruct (produce_all_cases (spread values) (host0 w))
        as [(rs & h' & Hall)
           | (pre & v & post & rs & h1 & o & h2 & Hsplit & Hpre & Hv & Ho)].
      - unfold chain_loop in Hloop.
        erewrite loop_fulfilled in Hloop; [ | reflexivity | exact Hall ].
        injection Hloop as _ <-. reflexivity.
      - rewrite Hsplit in Hloop. unfold chain_loop in Hloop.
        destruct o as [x | e | ].
        + contradiction (Ho x). reflexivity.
        + erewrite loop_first_failure in Hloop;
            [ | reflexivity | exact Hpre | exact Hv ].
          discriminate.
        + erewrite loop_stuck in Hloop;
            [ | reflexivity | exact Hpre | exact Hv ].
          discriminate. }
    split; [ exact Hnull | ].
    unfold on_final, bind, push, shift, get_rejection, get_results, ret.
    cbn [rejection results env]. rewrite Hnull. cbn [is_null negb].
    eexists. reflexivity.
  - intros e s Hloop. unfold run, chain, then_. rewrite Hloop. reflexivity.
Qed.

(** ** Further properties of the coordinator *)

(** A step consults the log only to extend it. *)
Lemma produce_log (v : value) (w : W) (l : list fid) :
  produce v (mkHost w l)
  = (fst (produce v (mkHost w [])),
     mkHost (world (snd (produce v (mkHost w []))))
            (l ++ calls (snd (produce v (mkHost w []))))).
Proof.
  unfold produce, call.
  destruct v; cbn; rewrite ?app_nil_r; try reflexivity.
  destruct (fenv f w); reflexivity.
Qed.

Lemma produce_all_log (values : list value) :
  forall w l,
    produce_all values (mkHost w l)
    = match produce_all values (mkHost w []) with
      | Some (rs, h) => Some (rs, mkHost (world h) (l ++ calls h))
      | None => None
      end.
Proof.
  induction values as [ | v rest IH]; intros w l.
  - cbn. rewrite app_nil_r. reflexivity.
  - cbn [produce_all]. rewrite (produce_log v w l).
    destruct (produce v (mkHost w [])) as [[x | e | ] [w1 l1]];
      cbn [fst snd world calls]; try reflexivity.
    rewrite (IH w1 (l ++ l1)), (IH w1 l1).
    destruct (produce_all rest (mkHost w1 [])) as [[rs h] | ];
      [ | reflexivity ].
    cbn [world calls]. rewrite app_assoc. reflexivity.
Qed.

Lemma produce_all_app (pre post : list value) :
  forall h rs1 h1 rs2 h2,
    produce_all pre h = Some (rs1, h1) ->
    produce_all post h1 = Some (rs2, h2) ->
    produce_all (pre ++ post) h = Some (rs1 ++ rs2, h2).
Proof.
  induction pre as [ | v rest IH]; intros h rs1 h1 rs2 h2 Hpre Hpost.
  - cbn in Hpre. injection Hpre as <- <-. exact Hpost.
  - cbn [produce_all app] in Hpre |- *.
    destruct (produce v h) as [[x | e | ] h0]; try discriminate.
    destruct (produce_all rest h0) as [[rs' h'] | ] eqn:Hrest;
      try discriminate.
    injection Hpre as <- <-.
    rewrite (IH _ _ _ _ _ Hrest Hpost). reflexivity.
Qed.

(** A run that fulfils is one in which every step succeeded. *)
Lemma run_fulfilled_inv (values : list value) (w : W) (x : value) (s : state) :
  run values w = (Fulfilled x, s) ->
  exists rs h',
    produce_all (spread values) (host0 w) = Some (rs, h')
    /\ x = VArray rs /\ s = mkState rs VNull h'.
Proof.
  intros Hrun.
  destruct (produce_all_cases (spread values) (host0 w))
    as [(rs & h' & Hall)
       | (pre & v & post & rs & h1 & o & h2 & Hsplit & Hpre & Hv & Ho)].
  - erewrite run_all_succeed in Hrun by exact Hall.
    injection Hrun as <- <-. exists rs, h'. auto.
  - destruct o as [y | e | ].
    + contradiction (Ho y). reflexivity.
    + erewrite run_first_failure in Hrun by eassumption. discriminate.
    + erewrite run_stuck in Hrun by eassumption. discriminate.
Qed.

(** [chain] invokes callables in step order, none twice and none out of
    turn: whatever the outcome, the calls made are an initial part of the
    callables among the steps; and they are all of them when [chain]
    fulfils.  A function that comes out of a step as its result is not a
    step and is not invoked. *)
Theorem callables_invoked_in_step_order (values : list value) (w : W) :
  (exists later,
      callables (spread values) = calls (env (snd (run values w))) ++ later)
  /\ (forall x,
         fst (run values w) = Fulfilled x ->
         calls (env (snd (run values w))) = callables (spread values)).
Proof.
  destruct (produce_all_cases (spread values) (host0 w))
    as [(rs & h' & Hall)
       | (pre & v & post & rs & h1 & o & h2 & Hsplit & Hpre & Hv & Ho)].
  - erewrite run_all_succeed by exact Hall. cbn [fst snd env].
    rewrite (produce_all_calls _ _ Hall). cbn [calls host0 app].
    split; [ exists []; symmetry; apply app_nil_r | reflexivity ].
  - assert (Hcalls : calls h2 = callables pre ++ callables [v]).
    { rewrite (produce_calls _ _ Hv), (produce_all_calls _ _ Hpre).
      reflexivity. }
    assert (Hall : callables (spread values)
                   = calls h2 ++ callables post).
    { rewrite Hsplit, Hcalls.
      change (v :: post) with ([v] ++ post).
      rewrite !callables_app, app_assoc. reflexivity. }
    destruct o as [y | e | ].
    + contradiction (Ho y). reflexivity.
    + erewrite run_first_failure by eassumption. cbn [fst snd env].
      split; [ exists (callables post); exact Hall | discriminate ].
    + erewrite run_stuck by eassumption. cbn [fst snd env].
      split; [ exists (callables post); exact Hall | discriminate ].
Qed.

(** A step that never settles, the steps before it having succeeded,
    leaves the promise of [chain] pending: no later step is started, the
    host stays as that step left it, and no failure is recorded. *)
Theorem unsettled_step_stalls_chain
        (values pre post rs : list value) (v : value)
        (w : W) (h1 h2 : host) :
  spread values = pre ++ v :: post ->
  produce_all pre (host0 w) = Some (rs, h1) ->
  produce v h1 = (Pending, h2) ->
  fst (run values w) = Pending
  /\ env (snd (run values w)) = h2
  /\ calls h2 = callables (pre ++ [v])
  /\ rejection (snd (run values w)) = VNull.
Proof.
  intros Hsplit Hpre Hv.
  erewrite run_stuck by eassumption. cbn [fst snd env rejection].
  split; [ reflexivity | split; [ reflexivity | split; [ | reflexivity ] ] ].
  rewrite (produce_calls _ _ Hv), (produce_all_calls _ _ Hpre).
  rewrite callables_app. reflexivity.
Qed.

(** Running a list of steps is running a first part of it and then the
    rest in the world the first part left: when [chain(pre)] fulfils with
    [rs1] and [chain(post)], called in the world that run ended in, fulfils
    with [rs2], then [chain(pre.concat(post))] fulfils with
    [rs1.concat(rs2)], ends in the same world, and makes the calls of the
    first run followed by those of the second. *)
Theorem chain_of_concatenation
        (pre post rs1 rs2 : list value) (w : W) (s1 s2 : state) :
  run [VArray pre] w = (Fulfilled (VArray rs1), s1) ->
  run [VArray post] (world (env s1)) = (Fulfilled (VArray rs2), s2) ->
  run [VArray (pre ++ post)] w
  = (Fulfilled (VArray (rs1 ++ rs2)),
     mkState (rs1 ++ rs2) VNull
             (mkHost (world (env s2)) (calls (env s1) ++ calls (env s2)))).
Proof.
  intros H1 H2.
  apply run_fulfilled_inv in H1 as (r1 & h1 & Hall1 & [= <-] & ->).
  apply run_fulfilled_inv in H2 as (r2 & h2 & Hall2 & [= <-] & ->).
  cbn [spread env] in *.
  apply run_all_succeed. cbn [spread].
  eapply produce_all_app; [ exact Hall1 | ].
  destruct h1 as [w1 l1]. cbn [world calls] in *.
  rewrite produce_all_log. unfold host0 in Hall2. rewrite Hall2.
  reflexivity.
Qed.

(** An array is unpacked only when it is the sole argument, and only one
    level deep: [chain([arr])] fulfils with [[arr]], and so does
    [chain(arr, x)] with [[arr, x]] for a plain [x]. *)
Theorem array_unpacked_only_alone (elems : list value) (x : value) (w : W) :
  fst (run [VArray [VArray elems]] w) = Fulfilled (VArray [VArray elems])
  /\ (plain x = true ->
      fst (run [VArray elems; x] w) = Fulfilled (VArray [VArray elems; x])).
Proof.
  split; [ | intros Hx ].
  - erewrite run_all_succeed; [ reflexivity | ].
    apply produce_all_plain. reflexivity.
  - erewrite run_all_succeed; [ reflexivity | ].
    apply produce_all_plain. cbn. rewrite Hx. reflexivity.
Qed.

End Chain.

(** ** The properties at work on the small host *)

Import Demo.

(** [chain(1, "x", [2])] *)
Lemma plain_values_returned_witness :
  fst (run table [VNum 1; VStr "x"; VArray [VNum 2]] 0)
  = Fulfilled (VArray [VNum 1; VStr "x"; VArray [VNum 2]]).
Proof.
  apply (plain_values_returned table [VNum 1; VStr "x"; VArray [VNum 2]] 0).
  reflexivity.
Defined.

(** C1 as stated fails: [chain(1, Promise.reject("x"))] is given two
    non-callable steps and does not fulfil. *)
Lemma non_callable_steps_may_reject :
  forallb (fun v => negb (is_function v)) [VNum 1; rejected_x] = true
  /\ fst (run table [VNum 1; rejected_x] 0) = Rejected (VStr "x")
  /\ fst (run table [VNum 1; rejected_x] 0)
     <> Fulfilled (VArray [VNum 1; rejected_x]).
Proof. split; [ reflexivity | split; [ reflexivity | discriminate ] ]. Defined.

(** [chain(() => 2, () => { throw "x"; }, () => 99, () => 2)]: the world
    counts two calls, and the third function is not called. *)
Lemma later_steps_not_invoked_witness :
  env (snd (run table [VFun 0; VFun 2; VFun 5; VFun 0] 0)) = mkHost 2 [0; 2]
  /\ calls (env (snd (run table [VFun 0; VFun 2; VFun 5; VFun 0] 0))) = [0; 2]
  /\ ~ In 5 (calls (env (snd (run table [VFun 0; VFun 2; VFun 5; VFun 0] 0)))).
Proof.
  destruct (later_steps_not_invoked table
              [VFun 0; VFun 2; VFun 5; VFun 0]
              [VFun 0] [VFun 5; VFun 0] 2 (rs := [VNum 2]) (e := VStr "x") 0
              (h1 := mkHost 1 [0]) (h2 := mkHost 2 [0; 2])
              eq_refl eq_refl eq_refl) as (Henv & Hcalls & Hlater).
  split; [ exact Henv | split; [ exact Hcalls | ] ].
  apply Hlater; cbn; intuition discriminate.
Defined.

(** [chain(1, () => { throw "x"; }, () => { throw null; })] *)
Lemma first_failure_surfaces_witness :
  fst (run table [VNum 1; VFun 2; VFun 3] 0) = Rejected (VStr "x").
Proof.
  apply (first_failure_surfaces table [VNum 1; VFun 2; VFun 3]
           [VNum 1] [VFun 3] (VFun 2) (rs := [VNum 1]) 0
           (h1 := mkHost 0 []) (h2 := mkHost 1 [2])
           eq_refl eq_refl eq_refl).
Defined.

(** C4 fails on the code.  [chain(() => { throw null; })] rejects with
    null itself, which is falsy, although [true] was recorded in
    [rejection]; [chain(() => Promise.reject())] rejects with undefined in
    the same way. *)
Theorem absent_error_surfaces_as_it_is :
  fst (run table [VFun 3] 0) = Rejected VNull
  /\ truthy VNull = false
  /\ rejection (snd (run table [VFun 3] 0)) = VBool true
  /\ fst (run table [VFun 4] 0) = Rejected VUndefined
  /\ truthy VUndefined = false
  /\ rejection (snd (run table [VFun 4] 0)) = VBool true.
Proof. repeat (split; [ reflexivity | ]). reflexivity. Qed.

(** [chain(1, () => 2, 3, () => Promise.resolve(4))] fulfils with
    [[1, 2, 3, 4]]. *)
Lemma results_follow_input_order_witness :
  fst (run table [VNum 1; VFun 0; VNum 3; VFun 1] 0)
  = Fulfilled (VArray [VNum 1; VNum 2; VNum 3; VNum 4]).
Proof.
  apply (results_follow_input_order table
           [VNum 1; VFun 0; VNum 3; VFun 1]
           (rs := [VNum 1; VNum 2; VNum 3; VNum 4]) 0
           (h' := mkHost 2 [0; 1]) eq_refl).
Defined.

(** C8 as stated fails: [chain(Promise.reject("x"))] is given one
    non-callable step and rejects, and no function was invoked. *)
Lemma non_callable_step_may_fail :
  is_function rejected_x = false
  /\ fst (run table [rejected_x] 0) = Rejected (VStr "x")
  /\ calls (env (snd (run table [rejected_x] 0))) = [].
Proof. split; [ reflexivity | split; reflexivity ]. Defined.

(** [chain(1, () => { throw "x"; }, 3)]: the failing step is the second. *)
Lemma failure_never_from_plain_value_witness :
  exists pre v post rs h1 h2,
    spread [VNum 1; VFun 2; VNum 3] = pre ++ v :: post
    /\ produce_all table pre (host0 0) = Some (rs, h1)
    /\ produce table v h1 = (Rejected (VStr "x"), h2)
    /\ plain v = false.
Proof.
  apply (failure_never_from_plain_value table [VNum 1; VFun 2; VNum 3] 0
           (e := VStr "x")).
  reflexivity.
Defined.

(** [chain(() => { throw null; }, () => { throw "x"; })]: [true] is
    recorded at the first turn and is still there at the end. *)
Lemma rejection_recorded_once_witness :
  nth_error (rejection_trace table [VFun 3; VFun 2] 0) 1 = Some (VBool true)
  /\ (forall r',
         nth_error (rejection_trace table [VFun 3; VFun 2] 0) 3 = Some r' ->
         r' = VBool true)
  /\ (forall r,
         nth_error (rejection_trace table [VFun 3; VFun 2] 0) 0 = Some r ->
         r = VNull).
Proof.
  split; [ reflexivity | split ].
  - intros r' Hr'.
    apply (proj1 (rejection_recorded_once table [VFun 3; VFun 2] 0)
             1 3 (VBool true) r');
      [ lia | reflexivity | discriminate | exact Hr' ].
  - intros r Hr.
    apply (proj2 (rejection_recorded_once table [VFun 3; VFun 2] 0)
             [] (VFun 3) [VFun 2] [] (host0 0) VNull (mkHost 1 [3]) 0 r
             eq_refl eq_refl eq_refl Hr).
Defined.

(** [chain(1, () => 2)]: the loop's promise is fulfilled with 2 and
    [rejection] is null. *)
Lemma final_reject_branch_unreachable_witness :
  (rejection (mkState [VUndefined; VNum 1] VNull (mkHost 1 [0])) = VNull
   /\ exists s',
        on_final (VNum 2) (mkState [VUndefined; VNum 1] VNull (mkHost 1 [0]))
        = (Return (Promise_resolve (VArray (results s'))), s'))
  /\ run table [VNum 1; VFun 3] 0
     = (Rejected VNull,
        mkState [VUndefined; VNum 1] (VBool true) (mkHost 1 [3])).
Proof.
  split.
  - apply (proj1 (final_reject_branch_unreachable table [VNum 1; VFun 0] 0)
             (VNum 2) (mkState [VUndefined; VNum 1] VNull (mkHost 1 [0]))).
    reflexivity.
  - apply (proj2 (final_reject_branch_unreachable table [VNum 1; VFun 3] 0)
             VNull (mkState [VUndefined; VNum 1] (VBool true) (mkHost 1 [3]))).
    reflexivity.
Defined.

(** ** [clamp] *)

Module GeometryFacts.

Import Geometry.

Open Scope Z_scope.

(** With the bounds in order, [clamp] answers within them, leaves alone
    exactly the inputs that are within them, and clamping what it answers
    changes nothing. *)
Theorem clamp_within_ordered_bounds (input lo hi : Z) :
  lo <= hi ->
  lo <= clamp input (Some lo) (Some hi) <= hi
  /\ (clamp input (Some lo) (Some hi) = input <-> lo <= input <= hi)
  /\ clamp (clamp input (Some lo) (Some hi)) (Some lo) (Some hi)
     = clamp input (Some lo) (Some hi).
Proof. unfold clamp. lia. Qed.

(** The upper bound is applied last and wins: [clamp] never answers above
    [max], and when [max] is below [min] it answers [max] for every input.
    With [max] left out this bound is 1, so that [clamp(100, 32)] is 1. *)
Theorem clamp_upper_bound_wins (input lo : Z) (max : option Z) :
  clamp input (Some lo) max <= match max with Some hi => hi | None => 1 end
  /\ (match max with Some hi => hi | None => 1 end < lo ->
      clamp input (Some lo) max
      = match max with Some hi => hi | None => 1 end)
  /\ clamp 100 (Some 32) None = 1.
Proof. unfold clamp. destruct max; lia. Qed.

Close Scope Z_scope.

End GeometryFacts.

(** ** [deCasteljau] *)

Module DeCasteljauFacts.

Import Geometry.

Section Facts.

Variable num : Type.
Variables add sub mul : num -> num -> num.
Variable half : num.

Local Abbreviation point := (point num).
Local Abbreviation between := (between add sub mul).
Local Abbreviation for_loop := (for_loop add sub mul).
Local Abbreviation while_loop := (while_loop add sub mul).
Local Abbreviation level := (level add sub mul).
Local Abbreviation deCasteljau := (deCasteljau add sub mul half).

(** The midpoints the inner loop pushes do not depend on what [a] and [b]
    held before. *)
Lemma for_loop_level (t : num) (points : list point) :
  forall a b, fst (fst (for_loop t points a b)) = level t points.
Proof.
  unfold Geometry.level.
  destruct points as [ | p [ | q rest]]; reflexivity.
Qed.

Lemma for_loop_cons2 (t : num) (p q : point) (rest : list point) a b :
  for_loop t (p :: q :: rest) a b
  = let '(ms, a', b') := for_loop t (q :: rest) (Some p) (Some q) in
    (between t p q :: ms, a', b').
Proof. reflexivity. Qed.

Lemma level_cons2 (t : num) (p q : point) (rest : list point) :
  level t (p :: q :: rest) = between t p q :: level t (q :: rest).
Proof.
  rewrite <- (for_loop_level t (q :: rest) (Some p) (Some q)).
  unfold Geometry.level. rewrite for_loop_cons2.
  destruct (for_loop t (q :: rest) (Some p) (Some q)) as [[ms a'] b'].
  reflexivity.
Qed.

(** A turn of the outer loop shortens [points] by one. *)
Lemma level_length (t : num) (points : list point) :
  length (level t points) = length points - 1.
Proof.
  induction points as [ | p [ | q rest] IH]; try reflexivity.
  rewrite level_cons2. cbn [length] in *. rewrite IH. lia.
Qed.

Lemma level_tl (t : num) (points : list point) :
  level t (tl points) = tl (level t points).
Proof.
  destruct points as [ | p [ | q rest]]; try reflexivity.
  rewrite level_cons2. reflexivity.
Qed.

Lemma level_removelast (t : num) (points : list point) :
  level t (removelast points) = removelast (level t points).
Proof.
  induction points as [ | p [ | q [ | r rest]] IH]; try reflexivity.
  change (removelast (p :: q :: r :: rest))
    with (p :: removelast (q :: r :: rest)).
  change (removelast (q :: r :: rest)) with (q :: removelast (r :: rest)) in *.
  rewrite level_cons2, IH, !level_cons2. reflexivity.
Qed.

Lemma iter_level_length (t : num) (n : nat) (points : list point) :
  length (Nat.iter n (level t) points) = length points - n.
Proof.
  induction n as [ | n IH]; [ cbn; lia | ].
  rewrite Nat.iter_succ, level_length, IH. lia.
Qed.

Lemma iter_level_tl (t : num) (n : nat) (points : list point) :
  Nat.iter n (level t) (tl points) = tl (Nat.iter n (level t) points).
Proof.
  induction n as [ | n IH]; [ reflexivity | ].
  rewrite !Nat.iter_succ, IH. apply level_tl.
Qed.

Lemma iter_level_removelast (t : num) (n : nat) (points : list point) :
  Nat.iter n (level t) (removelast points)
  = removelast (Nat.iter n (level t) points).
Proof.
  induction n as [ | n IH]; [ reflexivity | ].
  rewrite !Nat.iter_succ, IH. apply level_removelast.
Qed.

(** With two points or more the inner loop leaves the last two in [a] and
    [b]. *)
Lemma for_loop_last (t : num) (points : list point) :
  forall p q a0 b0,
    exists a b,
      for_loop t (p :: q :: points) a0 b0
      = (level t (p :: q :: points), Some a, Some b)
      /\ removelast (p :: q :: points) ++ [b] = p :: q :: points
      /\ exists front, removelast (p :: q :: points) = front ++ [a].
Proof.
  induction points as [ | r rest IH]; intros p q a0 b0.
  - exists p, q. repeat split. exists []. reflexivity.
  - destruct (IH q r (Some p) (Some q)) as (a & b & Hloop & Hb & front & Ha).
    exists a, b. split; [ | split ].
    + rewrite level_cons2, for_loop_cons2, Hloop. reflexivity.
    + change (removelast (p :: q :: r :: rest))
        with (p :: removelast (q :: r :: rest)).
      cbn [app]. rewrite Hb. reflexivity.
    + exists (p :: front).
      change (removelast (p :: q :: r :: rest))
        with (p :: removelast (q :: r :: rest)).
      rewrite Ha. reflexivity.
Qed.

(** The outer loop on two points or more: what is left is the one point
    between the two points of the level before, and these two are [a] and
    [b].  Any fuel from the number of points less one will do. *)
Lemma while_loop_spec (t : num) (n : nat) :
  forall (points : list point) (fuel : nat) a0 b0,
    length points = S (S n) ->
    S n <= fuel ->
    exists a b,
      Nat.iter n (level t) points = [a; b]
      /\ while_loop fuel t points a0 b0
         = ([between t a b], Some a, Some b).
Proof.
  induction n as [ | n IH]; intros points fuel a0 b0 Hlen Hfuel.
  - destruct points as [ | a [ | b [ | c rest]]]; try discriminate.
    exists a, b. split; [ reflexivity | ].
    destruct fuel as [ | [ | fuel]]; [ lia | reflexivity | reflexivity ].
  - destruct fuel as [ | fuel]; [ lia | ].
    destruct points as [ | p [ | q rest]]; try discriminate.
    destruct (for_loop_last t rest p q a0 b0) as (a' & b' & Hloop & _).
    destruct (IH (level t (p :: q :: rest)) fuel (Some a') (Some b'))
      as (a & b & Hiter & Hwhile).
    + rewrite level_length, Hlen. reflexivity.
    + lia.
    + exists a, b. split.
      * rewrite Nat.iter_succ_r. exact Hiter.
      * cbn [Geometry.while_loop].
        replace (1 <? length (p :: q :: rest)) with true
          by (symmetry; apply Nat.ltb_lt; cbn; lia).
        rewrite Hloop. exact Hwhile.
Qed.

(** The loop of [deCasteljau] ends because a single point or none is
    left, not for want of fuel: more fuel than the number of points changes
    nothing, and a list of at most one point comes out.  With fewer than
    two points the loop does not run and both tangents stay undefined. *)
Theorem deCasteljau_loop_ends (points : list point) (t : num) (extra : nat) :
  while_loop (length points + extra) t points None None
  = while_loop (length points) t points None None
  /\ length (fst (fst (while_loop (length points) t points None None))) <= 1
  /\ (forall position, deCasteljau [] position = [None; None; None])
  /\ (forall p position, deCasteljau [p] position = [Some p; None; None]).
Proof.
  split; [ | split; [ | split; [ reflexivity | reflexivity ] ] ].
  - destruct points as [ | p [ | q rest]].
    + destruct extra; reflexivity.
    + destruct extra; reflexivity.
    + destruct (while_loop_spec t (n := length rest) (p :: q :: rest)
                  (fuel := length (p :: q :: rest) + extra) None None)
        as (a & b & Hiter & ->); [ reflexivity | cbn; lia | ].
      destruct (while_loop_spec t (n := length rest) (p :: q :: rest)
                  (fuel := length (p :: q :: rest)) None None)
        as (a' & b' & Hiter' & ->); [ reflexivity | cbn; lia | ].
      rewrite Hiter in Hiter'. injection Hiter' as <- <-. reflexivity.
  - destruct points as [ | p [ | q rest]]; [ cbn; lia | cbn; lia | ].
    destruct (while_loop_spec t (n := length rest) (p :: q :: rest)
                (fuel := length (p :: q :: rest)) None None)
      as (a & b & _ & ->); [ reflexivity | cbn; lia | ].
    cbn. lia.
Qed.

(** The first entry of the result: the point left when the levels are
    taken one after another. *)
Lemma deCasteljau_first (points : list point) (t : num) :
  nth 0 (deCasteljau points (Some t)) None
  = hd_error (Nat.iter (length points - 1) (level t) points).
Proof.
  destruct points as [ | p [ | q rest]]; try reflexivity.
  unfold Geometry.deCasteljau.
  destruct (while_loop_spec t (n := length rest) (p :: q :: rest)
              (fuel := length (p :: q :: rest)) None None)
    as (a & b & Hiter & ->); [ reflexivity | cbn; lia | ].
  replace (length (p :: q :: rest) - 1) with (S (length rest))
    by (cbn; lia).
  rewrite Nat.iter_succ, Hiter. reflexivity.
Qed.

Lemma deCasteljau_splits_at (points : list point) (t : num) :
  2 <= length points ->
  exists a b,
    deCasteljau points (Some t) = [Some (between t a b); Some a; Some b]
    /\ nth 0 (deCasteljau (removelast points) (Some t)) None = Some a
    /\ nth 0 (deCasteljau (tl points) (Some t)) None = Some b.
Proof.
  intros Hlen.
  destruct points as [ | p [ | q rest]]; [ cbn in Hlen; lia .. | ].
  destruct (while_loop_spec t (n := length rest) (p :: q :: rest)
              (fuel := length (p :: q :: rest)) None None)
    as (a & b & Hiter & Hwhile); [ reflexivity | cbn; lia | ].
  exists a, b. split; [ | split ].
  - unfold Geometry.deCasteljau. rewrite Hwhile. reflexivity.
  - rewrite deCasteljau_first.
    assert (Hl : length (removelast (p :: q :: rest)) - 1 = length rest).
    { rewrite removelast_firstn_len, length_firstn. cbn. lia. }
    rewrite Hl, iter_level_removelast, Hiter. reflexivity.
  - rewrite deCasteljau_first.
    replace (length (tl (p :: q :: rest)) - 1) with (length rest)
      by (cbn; lia).
    rewrite iter_level_tl, Hiter. reflexivity.
Qed.

(** For two points or more, [deCasteljau] answers the point [m] on the
    curve and two points [a] and [b] with [m] between them at [position]
    (0.5 when it is left out); [a] is the point on the curve of all the
    points but the last, and [b] that of all the points but the first. *)
Theorem deCasteljau_splits_the_curve
        (points : list point) (position : option num) :
  2 <= length points ->
  exists a b,
    deCasteljau points position
    = [Some (between match position with Some t => t | None => half end
                     a b);
       Some a; Some b]
    /\ nth 0 (deCasteljau (removelast points) position) None = Some a
    /\ nth 0 (deCasteljau (tl points) position) None = Some b.
Proof.
  intros Hlen. destruct position as [t | ].
  - apply deCasteljau_splits_at, Hlen.
  - apply (deCasteljau_splits_at points half Hlen).
Qed.

End Facts.

End DeCasteljauFacts.

(** ** [nerf] *)

Module NerfFacts.

Import Nerf.

Section Facts.

Variable W : Type.
Variable apply : fid -> value -> list value -> W -> completion * W.

(** However often a handler is called, it returns where [fn] returns, and
    with the same value; it returns null where [fn] throws; it leaves the
    world as the calls of [fn] do; and [lastError] ends as the error of the
    latest call that threw, a call that returns leaving it as it was. *)
Theorem handler_contains_and_remembers
        (fn : fid) (context : value) (argss : list (list value))
        (s : cell W) :
  handler_calls apply fn context argss s
  = (map contained (fst (direct_calls apply fn context argss (hworld s))),
     mkCell (last (thrown (fst (direct_calls apply fn context argss
                                             (hworld s))))
                  (lastError s))
            (snd (direct_calls apply fn context argss (hworld s)))).
Proof.
  revert s. induction argss as [ | args rest IH]; intros s.
  - destruct s; reflexivity.
  - cbn [handler_calls direct_calls]. unfold handler.
    destruct (apply fn context args (hworld s)) as [[r | e] w1];
      rewrite IH; cbn [hworld lastError];
      destruct (direct_calls apply fn context rest w1) as [cs w2];
      cbn [fst snd map contained]; [ reflexivity | ].
    unfold thrown. cbn [flat_map app]. fold (thrown cs).
    rewrite last_cons. reflexivity.
Qed.

(** [nerf] refuses what is not a function, and nothing else. *)
Lemma nerf_checks_its_argument (fn : value) (context : option value) :
  is_function fn = false
  <-> exists message, nerf fn context = TypeError message.
Proof.
  destruct fn; cbn; split;
    try discriminate; try (intros [m Hm]; discriminate);
    try reflexivity; intros _; eexists; reflexivity.
Qed.

End Facts.

Section WithChain.

Variable W : Type.
Variable fenv : fid -> W -> completion * W.

Lemma adopt_non_promise (v : value) :
  is_promise v = false -> adopt v = Fulfilled v.
Proof. destruct v; try discriminate; reflexivity. Qed.

(** A step of the nerfed table succeeds when its function does not answer
    with a promise. *)
Lemma produce_nerfed (v : value) (h : host (W * (fid -> value))) :
  (forall f w r w', fenv f w = (Return r, w') -> is_promise r = false) ->
  is_promise v = false ->
  exists r h', produce (nerf_table fenv) v h = (Fulfilled r, h').
Proof.
  intros Hsync Hv.
  destruct v; try discriminate; try (eexists; eexists; reflexivity).
  unfold produce, call, nerf_table, handler. cbn [hworld lastError].
  destruct (fenv f (fst (world h))) as [[r | e] w'] eqn:Hf.
  - cbn [settle]. rewrite (adopt_non_promise r (Hsync _ _ _ _ Hf)).
    eexists; eexists; reflexivity.
  - eexists; eexists; reflexivity.
Qed.

Lemma produce_all_nerfed (values : list value) :
  (forall f w r w', fenv f w = (Return r, w') -> is_promise r = false) ->
  forallb (fun v => negb (is_promise v)) values = true ->
  forall h, exists rs h',
      produce_all (nerf_table fenv) values h = Some (rs, h').
Proof.
  intros Hsync. induction values as [ | v rest IH]; intros Hvalues h.
  - exists [], h. reflexivity.
  - cbn [forallb] in Hvalues.
    apply andb_prop in Hvalues as [Hv Hrest].
    apply negb_true_iff in Hv.
    destruct (produce_nerfed v h Hsync Hv) as (r & h1 & Hr).
    destruct (IH Hrest h1) as (rs & h' & Hall).
    exists (r :: rs), h'. cbn [produce_all]. rewrite Hr, Hall. reflexivity.
Qed.

(** Steps whose functions are wrapped by [nerf] do not stop the
    coordinator by throwing: when no step is a promise and no function
    answers with one, [chain] over the wrapped functions fulfils with one
    result for each step, and every callable among the steps is called. *)
Theorem nerfed_steps_do_not_stop_chain
        (values : list value) (ws : W * (fid -> value)) :
  (forall f w r w', fenv f w = (Return r, w') -> is_promise r = false) ->
  forallb (fun v => negb (is_promise v)) (spread values) = true ->
  exists rs,
    fst (run (nerf_table fenv) values ws) = Fulfilled (VArray rs)
    /\ length rs = length (spread values)
    /\ calls (env (snd (run (nerf_table fenv) values ws)))
       = callables (spread values).
Proof.
  intros Hsync Hvalues.
  destruct (produce_all_nerfed (spread values) Hsync Hvalues (host0 ws))
    as (rs & h' & Hall).
  exists rs. erewrite run_all_succeed by exact Hall. cbn [fst snd env].
  split; [ reflexivity | split ].
  - eapply produce_all_length, Hall.
  - rewrite (produce_all_calls _ _ _ Hall). reflexivity.
Qed.

(** [nerf] contains what a function throws, not a promise it returns: a
    wrapped step whose function returns a promise that rejects makes
    [chain] reject with that error, and the handler's [lastError] is left
    as it was. *)
Theorem nerf_lets_rejections_through
        (f : fid) (ws : W * (fid -> value)) (r e : value) (w' : W) :
  fenv f (fst ws) = (Return r, w') ->
  adopt r = Rejected e ->
  fst (run (nerf_table fenv) [VFun f] ws) = Rejected e
  /\ snd (world (env (snd (run (nerf_table fenv) [VFun f] ws)))) f = snd ws f.
Proof.
  intros Hf Hr.
  assert (Hstep : produce (nerf_table fenv) (VFun f) (host0 ws)
                  = (Rejected e,
                     mkHost (w', fun g => if Nat.eqb g f then snd ws f
                                          else snd ws g) [f])).
  { unfold produce, call, nerf_table, handler.
    cbn [hworld lastError world calls host0]. rewrite Hf.
    cbn [settle hworld lastError app]. rewrite Hr. reflexivity. }
  rewrite (@run_first_failure _ (nerf_table fenv) [VFun f] [] [] []
             (VFun f) e ws _ _ eq_refl eq_refl Hstep).
  cbn [fst snd env world]. rewrite Nat.eqb_refl. split; reflexivity.
Qed.

End WithChain.

End NerfFacts.

(** ** [debounce] *)

Module DebounceFacts.

Import Debounce.

Section Facts.

Variable W : Type.
Variable fn : value -> list value -> W -> completion * W.
Variable limit : Z.
Variable asap : bool.

Local Abbreviation apply_fn := (apply_fn fn).
Local Abbreviation delayed := (delayed fn limit asap).
Local Abbreviation debounced := (debounced fn limit asap).
Local Abbreviation fire := (fire fn limit asap).
Local Abbreviation step := (step fn limit asap).
Local Abbreviation after := (after fn limit asap).

(** A call of [fn] changes the world and the log, and no variable of the
    debounced function. *)
Lemma apply_fn_eq (now : Z) (s : dstate W) :
  apply_fn now s
  = (fst (fn (context s) (match args s with Some l => l | None => [] end)
             (dworld s)),
     mkD (started s) (context s) (args s) (timing s) (timers s)
         (next_timer s)
         (snd (fn (context s) (match args s with Some l => l | None => [] end)
                  (dworld s)))
         (applied s
          ++ [(now, context s,
               match args s with Some l => l | None => [] end)])).
Proof.
  unfold Debounce.apply_fn.
  destruct (fn (context s) _ (dworld s)). reflexivity.
Qed.

Lemma after_snoc (evs : list event) (ev : event) (s : dstate W) :
  after (evs ++ [ev]) s = snd (step ev (after evs s)).
Proof. unfold Debounce.after. rewrite fold_left_app. reflexivity. Qed.

Lemma last_call_snoc_call (evs : list event) now this arguments :
  last_call (evs ++ [Call now this arguments]) = Some (now, this, arguments).
Proof.
  unfold last_call, calls_of. rewrite flat_map_app, map_app. cbn.
  apply last_last.
Qed.

Lemma last_call_snoc_fire (evs : list event) now id :
  last_call (evs ++ [Fire now id]) = last_call evs.
Proof.
  unfold last_call, calls_of. rewrite flat_map_app. cbn.
  rewrite app_nil_r. reflexivity.
Qed.

(** The timer the host runs is the one timer set. *)
Lemma pending_timer (s : dstate W) (id : nat) :
  tidy s ->
  existsb (fun t => Nat.eqb (fst t) id) (timers s) = true ->
  exists delay,
    timers s = [(id, delay)] /\ timing s = Some id
    /\ timers (clearTimeout id s) = [].
Proof.
  intros [Hnone | (id' & delay & Hone & Htiming)] Hset.
  - rewrite Hnone in Hset. discriminate.
  - rewrite Hone in Hset. cbn in Hset. rewrite orb_false_r in Hset.
    apply Nat.eqb_eq in Hset. subst id'.
    exists delay. split; [ exact Hone | split; [ exact Htiming | ] ].
    unfold clearTimeout. cbn [timers]. rewrite Hone. cbn.
    rewrite Nat.eqb_refl. reflexivity.
Qed.

Lemma follows_snoc_fire (evs : list event) now id (s : dstate W) :
  follows (evs ++ [Fire now id]) s = follows evs s.
Proof. unfold follows. rewrite last_call_snoc_fire. reflexivity. Qed.

(** What every event keeps. *)
Lemma step_keeps (evs : list event) (ev : event) (s : dstate W) :
  tidy s ->
  follows evs s ->
  (limit = 0%Z -> timers s = []) ->
  tidy (snd (step ev s))
  /\ follows (evs ++ [ev]) (snd (step ev s))
  /\ (limit = 0%Z -> timers (snd (step ev s)) = []).
Proof.
  intros Htidy Hfollows Hzero.
  destruct ev as [now this arguments | now id].
  - unfold follows. rewrite last_call_snoc_call.
    unfold Debounce.step, Debounce.debounced.
    destruct (Z.eqb_spec limit 0) as [Hl | Hl].
    + rewrite apply_fn_eq. cbn [snd timers started context args timing].
      rewrite (Hzero Hl).
      split; [ left; reflexivity | split; [ | reflexivity ] ].
      intros H. contradiction H. reflexivity.
    + cbn [timing started context args timers next_timer dworld applied].
      destruct (timing s) as [id | ] eqn:Htiming.
      * cbn [snd]. split; [ | split; [ | intros H; contradiction ] ].
        -- destruct Htidy as [Hnone | (id' & delay & Hone & Hid)].
           ++ left. exact Hnone.
           ++ right. exists id', delay. cbn [timers timing].
              split; [ exact Hone | congruence ].
        -- intros _. cbn. auto.
      * assert (Hnone : timers s = []).
        { destruct Htidy as [Hnone | (id' & delay & _ & Hid)];
            [ exact Hnone | congruence ]. }
        destruct asap.
        -- rewrite apply_fn_eq.
           cbn [timing started context args timers next_timer dworld applied].
           destruct (fst (fn this arguments (dworld s))) as [r | e];
             cbn [snd]; unfold set_timing;
             cbn [timing started context args timers next_timer dworld
                  applied];
             rewrite Hnone.
           ++ split; [ right; eexists; eexists; split; reflexivity | ].
              split; [ intros _; auto | intros H; contradiction ].
           ++ split; [ left; reflexivity | ].
              split; [ intros H; contradiction H; reflexivity
                     | intros H; contradiction ].
        -- cbn [snd]. unfold set_timing.
           cbn [timing started context args timers next_timer dworld applied].
           rewrite Hnone.
           split; [ right; eexists; eexists; split; reflexivity | ].
           split; [ intros _; auto | intros H; contradiction ].
  - rewrite follows_snoc_fire.
    unfold Debounce.step, Debounce.fire.
    destruct (existsb (fun t => Nat.eqb (fst t) id) (timers s)) eqn:Hset;
      [ | cbn [snd]; auto ].
    destruct (@pending_timer s id Htidy Hset)
      as (delay & Hone & Htiming & Hclear).
    assert (Hl : limit <> 0%Z).
    { intros Hl. rewrite (Hzero Hl) in Hone. discriminate. }
    assert (Hlast : exists t0 this arguments,
               last_call evs = Some (t0, this, arguments)
               /\ started s = Some t0 /\ context s = this
               /\ args s = Some arguments).
    { unfold follows in Hfollows.
      destruct (last_call evs) as [[[t0 this] arguments] | ].
      - exists t0, this, arguments. split; [ reflexivity | ].
        apply Hfollows. rewrite Hone. discriminate.
      - rewrite Hfollows in Hone. discriminate. }
    destruct Hlast as (t0 & this & arguments & Hlast & Hst & Hcx & Har).
    unfold Debounce.delayed.
    cbn [started clearTimeout]. rewrite Hst. cbn [option_map].
    destruct (limit <=? now - t0)%Z.
    + assert (Hdown : forall s1 : dstate W,
                 timers s1 = [] ->
                 tidy (settle_down s1)
                 /\ follows evs (settle_down s1)
                 /\ (limit = 0%Z -> timers (settle_down s1) = [])).
      { intros s1 H1.
        assert (H2 : timers (settle_down s1) = []).
        { unfold settle_down. destruct (timing s1); cbn [timers];
            [ unfold clearTimeout; cbn [timers]; rewrite H1 | ];
            auto. }
        split; [ left; exact H2 | split; [ | intros _; exact H2 ] ].
        unfold follows. rewrite Hlast, H2. intros H. contradiction H.
        reflexivity. }
      destruct asap; cbn [negb].
      * cbn [snd]. apply Hdown. exact Hclear.
      * rewrite apply_fn_eq.
        destruct (fst (fn _ _ _)) as [r | e]; cbn [snd].
        -- apply Hdown. cbn [timers]. exact Hclear.
        -- unfold follows, tidy. rewrite Hlast. cbn [timers timing].
           rewrite Hclear.
           split; [ left; reflexivity | ].
           split; [ intros H; contradiction H; reflexivity
                  | intros _; reflexivity ].
    + cbn [snd]. unfold set_timing, tidy, follows.
      cbn [timing started context args timers next_timer dworld applied].
      rewrite Hclear, Hlast.
      split; [ right; eexists; eexists; split; reflexivity | ].
      split; [ intros _; auto | intros H; contradiction ].
Qed.

(** What holds after any sequence of events. *)
Lemma reachable (evs : list event) (w : W) :
  tidy (after evs (init w))
  /\ follows evs (after evs (init w))
  /\ (limit = 0%Z -> timers (after evs (init w)) = []).
Proof.
  induction evs as [ | ev evs IH] using rev_ind.
  - split; [ left; reflexivity | split; reflexivity ].
  - destruct IH as (Htidy & Hfollows & Hzero).
    rewrite after_snoc. apply step_keeps; assumption.
Qed.

(** At any time at most one timer is set for a debounced function, and
    it is the one [timing] holds. *)
Theorem at_most_one_timer (evs : list event) (w : W) :
  length (timers (after evs (init w))) <= 1
  /\ forall id delay,
       In (id, delay) (timers (after evs (init w))) ->
       timing (after evs (init w)) = Some id.
Proof.
  destruct (reachable evs w) as ([Hnone | (id' & delay' & Hone & Hid)] & _).
  - rewrite Hnone. split; [ cbn; lia | intros id delay [] ].
  - rewrite Hone. split; [ cbn; lia | ].
    intros id delay [[= <- _] | []]. exact Hid.
Qed.

(** With a limit of 0 the debounced function is [fn]: every call calls
    [fn] at once with its own receiver and arguments and completes as [fn]
    does, and no timer is ever set. *)
Theorem zero_limit_calls_through (evs : list event) (w : W) :
  limit = 0%Z ->
  applied (after evs (init w)) = calls_of evs
  /\ timers (after evs (init w)) = []
  /\ forall now this arguments,
       fst (step (Call now this arguments) (after evs (init w)))
       = fst (fn this arguments (dworld (after evs (init w)))).
Proof.
  intros Hl. split; [ | split ].
  - induction evs as [ | ev evs IH] using rev_ind; [ reflexivity | ].
    rewrite after_snoc. unfold calls_of. rewrite flat_map_app.
    fold (calls_of evs). rewrite <- IH.
    destruct ev as [now this arguments | now id].
    + unfold Debounce.step, Debounce.debounced.
      rewrite Hl. cbn [Z.eqb]. rewrite apply_fn_eq. reflexivity.
    + unfold Debounce.step, Debounce.fire.
      destruct (reachable evs w) as (_ & _ & Hzero).
      rewrite (Hzero Hl). cbn. rewrite app_nil_r. reflexivity.
  - apply (reachable evs w), Hl.
  - intros now this arguments.
    unfold Debounce.step, Debounce.debounced.
    rewrite Hl. cbn [Z.eqb]. rewrite apply_fn_eq. reflexivity.
Qed.

(** Without [asap] and with a limit, a call never calls [fn] itself.
    [fn] is called only when a timer runs at a time that is at least
    [limit] after the latest call, and then with the receiver and the
    arguments of that latest call. *)
Theorem trailing_call_waits_for_limit
        (evs : list event) (w : W) (ev : event) :
  asap = false ->
  limit <> 0%Z ->
  applied (snd (step ev (after evs (init w)))) = applied (after evs (init w))
  \/ exists now id t0 this arguments,
       ev = Fire now id
       /\ last_call evs = Some (t0, this, arguments)
       /\ (limit <= now - t0)%Z
       /\ applied (snd (step ev (after evs (init w))))
          = applied (after evs (init w)) ++ [(now, this, arguments)].
Proof.
  intros Hasap Hl.
  destruct (reachable evs w) as (Htidy & Hfollows & _).
  set (s := after evs (init w)) in *.
  destruct ev as [now this arguments | now id].
  - left. unfold Debounce.step, Debounce.debounced.
    destruct (Z.eqb_spec limit 0) as [H0 | _]; [ contradiction | ].
    rewrite Hasap.
    cbn [timing started context args timers next_timer dworld applied].
    destruct (timing s); reflexivity.
  - unfold Debounce.step, Debounce.fire.
    destruct (existsb (fun t => Nat.eqb (fst t) id) (timers s)) eqn:Hset;
      [ | left; reflexivity ].
    destruct (@pending_timer s id Htidy Hset)
      as (delay & Hone & Htiming & Hclear).
    unfold follows in Hfollows.
    destruct (last_call evs) as [[[t0 this] arguments] | ];
      [ | rewrite Hfollows in Hone; discriminate ].
    destruct Hfollows as (Hst & Hcx & Har);
      [ rewrite Hone; discriminate | ].
    unfold Debounce.delayed. rewrite Hasap.
    cbn [started clearTimeout negb]. rewrite Hst. cbn [option_map].
    destruct (Z.leb_spec limit (now - t0)) as [Hle | Hlt];
      [ | left; reflexivity ].
    right. exists now, id, t0, this, arguments.
    split; [ reflexivity | split; [ reflexivity | split; [ exact Hle | ] ] ].
    rewrite apply_fn_eq.
    cbn [context args applied dworld timing clearTimeout].
    rewrite Hcx, Har, Htiming.
    destruct (fst (fn this arguments (dworld s))); reflexivity.
Qed.

(** With [asap], no timer being set leaves [timing] empty. *)
Lemma reachable_idle (evs : list event) (w : W) :
  asap = true -> idle (after evs (init w)).
Proof.
  intros Hasap.
  induction evs as [ | ev evs IH] using rev_ind; [ intros _; reflexivity | ].
  rewrite after_snoc.
  destruct (reachable evs w) as (Htidy & _).
  set (s := after evs (init w)) in *. unfold idle in *.
  destruct ev as [now this arguments | now id].
  - unfold Debounce.step, Debounce.debounced.
    destruct (limit =? 0)%Z.
    + rewrite apply_fn_eq. cbn [snd timers timing]. exact IH.
    + rewrite Hasap.
      cbn [timing started context args timers next_timer dworld applied].
      destruct (timing s) as [id | ] eqn:Htiming.
      * cbn [snd timers timing]. intros Hnone.
        specialize (IH Hnone). congruence.
      * rewrite apply_fn_eq.
        destruct (fst (fn _ _ _)); cbn [snd].
        -- unfold set_timing. cbn [timers timing]. intros H.
           apply app_eq_nil in H as [_ H]. discriminate.
        -- cbn [timers timing]. intros _. reflexivity.
  - unfold Debounce.step, Debounce.fire.
    destruct (existsb (fun t => Nat.eqb (fst t) id) (timers s)) eqn:Hset;
      [ | exact IH ].
    unfold Debounce.delayed. rewrite Hasap. cbn [negb].
    destruct (match option_map _ (started (clearTimeout id s)) with
              | Some d => (limit <=? d)%Z
              | None => false
              end); cbn [snd].
    + unfold settle_down.
      destruct (timing (clearTimeout id s)); reflexivity.
    + unfold set_timing. cbn [timers timing]. intros H.
      apply app_eq_nil in H as [_ H]. discriminate.
Qed.

(** With [asap] and a limit, a timer never calls [fn]; a call calls [fn]
    at once, with its own receiver and arguments, when no timer is set,
    and not at all while one is. *)
Theorem leading_call_only_when_idle
        (evs : list event) (w : W) (ev : event) :
  asap = true ->
  limit <> 0%Z ->
  applied (snd (step ev (after evs (init w))))
  = applied (after evs (init w))
    ++ match ev with
       | Call now this arguments =>
           match timers (after evs (init w)) with
           | [] => [(now, this, arguments)]
           | _ :: _ => []
           end
       | Fire _ _ => []
       end.
Proof.
  intros Hasap Hl.
  destruct (reachable evs w) as (Htidy & _).
  pose proof (reachable_idle evs w Hasap) as Hidle.
  set (s := after evs (init w)) in *. unfold idle in Hidle.
  destruct ev as [now this arguments | now id].
  - unfold Debounce.step, Debounce.debounced.
    destruct (Z.eqb_spec limit 0) as [H0 | _]; [ contradiction | ].
    rewrite Hasap.
    cbn [timing started context args timers next_timer dworld applied].
    destruct Htidy as [Hnone | (id' & delay & Hone & Hid)].
    + rewrite (Hidle Hnone), Hnone, apply_fn_eq.
      destruct (fst (fn _ _ _)); reflexivity.
    + rewrite Hid, Hone. cbn [snd applied]. symmetry. apply app_nil_r.
  - unfold Debounce.step, Debounce.fire.
    destruct (existsb (fun t => Nat.eqb (fst t) id) (timers s));
      [ | symmetry; apply app_nil_r ].
    unfold Debounce.delayed. rewrite Hasap. cbn [negb].
    destruct (match option_map _ (started (clearTimeout id s)) with
              | Some d => (limit <=? d)%Z
              | None => false
              end); cbn [snd].
    + unfold settle_down.
      destruct (timing (clearTimeout id s)); cbn [applied];
        symmetry; apply app_nil_r.
    + cbn [set_timing applied]. symmetry. apply app_nil_r.
Qed.

(** With [timing] held and no timer set, nothing calls [fn] any more. *)
Lemma jammed (later : list event) :
  forall s : dstate W,
    limit <> 0%Z ->
    timers s = [] ->
    timing s <> None ->
    applied (after later s) = applied s.
Proof.
  induction later as [ | ev later IH]; intros s Hl Hnone Hheld;
    [ reflexivity | ].
  change (after (ev :: later) s) with (after later (snd (step ev s))).
  assert (Hstep : timers (snd (step ev s)) = []
                  /\ timing (snd (step ev s)) <> None
                  /\ applied (snd (step ev s)) = applied s).
  { destruct ev as [now this arguments | now id].
    - unfold Debounce.step, Debounce.debounced.
      destruct (Z.eqb_spec limit 0) as [H0 | _]; [ contradiction | ].
      cbn [timing started context args timers next_timer dworld applied].
      destruct (timing s); [ cbn; auto | contradiction ].
    - unfold Debounce.step, Debounce.fire. rewrite Hnone. cbn. auto. }
  destruct Hstep as (H1 & H2 & H3).
  rewrite (IH _ Hl H1 H2). exact H3.
Qed.

(** When [fn] throws in a call made by a timer, the debounced function
    is dead: whatever calls follow, [fn] is never called again. *)
Theorem throw_in_timer_jams
        (evs later : list event) (w : W) (now : Z) (id : nat) (e : value) :
  fst (step (Fire now id) (after evs (init w))) = Throw e ->
  applied (after later (snd (step (Fire now id) (after evs (init w)))))
  = applied (snd (step (Fire now id) (after evs (init w)))).
Proof.
  destruct (reachable evs w) as (Htidy & Hfollows & Hzero).
  set (s := after evs (init w)) in *.
  unfold Debounce.step, Debounce.fire.
  destruct (existsb (fun t => Nat.eqb (fst t) id) (timers s)) eqn:Hset;
    [ | discriminate ].
  destruct (@pending_timer s id Htidy Hset)
    as (delay & Hone & Htiming & Hclear).
  assert (Hl : limit <> 0%Z).
  { intros Hl. rewrite (Hzero Hl) in Hone. discriminate. }
  unfold Debounce.delayed.
  destruct (match option_map _ (started (clearTimeout id s)) with
            | Some d => (limit <=? d)%Z
            | None => false
            end); [ | discriminate ].
  destruct (negb asap); [ | discriminate ].
  rewrite apply_fn_eq.
  destruct (fst (fn _ _ _)); cbn [fst snd]; [ discriminate | ].
  intros _. apply jammed; cbn [timers timing]; [ exact Hl | exact Hclear | ].
  cbn [timing clearTimeout]. rewrite Htiming. discriminate.
Qed.

End Facts.

End DebounceFacts.

(** ** The further properties at work *)

Import Samples.

(** [chain(() => 2, 3, () => Promise.resolve(4))] calls the first and the
    third step, in this order. *)
Lemma callables_invoked_in_step_order_witness :
  calls (env (snd (run table [VFun 0; VNum 3; VFun 1] 0))) = [0; 1].
Proof.
  apply (proj2 (@callables_invoked_in_step_order nat table
                  [VFun 0; VNum 3; VFun 1] 0)
           (VArray [VNum 2; VNum 3; VNum 4])).
  reflexivity.
Defined.

(** [chain([() => 2, new Promise(() => {}), () => 99])] *)
Lemma unsettled_step_stalls_chain_witness :
  fst (run sync_table [VArray [VFun 0; VPromise NeverSettles; VFun 5]] 0)
  = Pending
  /\ env (snd (run sync_table
                   [VArray [VFun 0; VPromise NeverSettles; VFun 5]] 0))
     = mkHost 1 [0]
  /\ calls (mkHost 1 [0]) = callables [VFun 0; VPromise NeverSettles]
  /\ rejection (snd (run sync_table
                         [VArray [VFun 0; VPromise NeverSettles; VFun 5]] 0))
     = VNull.
Proof.
  apply (@unsettled_step_stalls_chain nat sync_table
           [VArray [VFun 0; VPromise NeverSettles; VFun 5]]
           [VFun 0] [VFun 5] [VNum 2] (VPromise NeverSettles) 0
           (mkHost 1 [0]) (mkHost 1 [0]) eq_refl eq_refl eq_refl).
Defined.

(** [chain([() => 2])] and then [chain([3, () => 99])], against
    [chain([() => 2, 3, () => 99])]. *)
Lemma chain_of_concatenation_witness :
  run sync_table [VArray ([VFun 0] ++ [VNum 3; VFun 5])] 0
  = (Fulfilled (VArray ([VNum 2] ++ [VNum 3; VNum 99])),
     mkState ([VNum 2] ++ [VNum 3; VNum 99]) VNull
             (mkHost 2 ([0] ++ [5]))).
Proof.
  apply (@chain_of_concatenation nat sync_table
           [VFun 0] [VNum 3; VFun 5] [VNum 2] [VNum 3; VNum 99] 0
           (mkState [VNum 2] VNull (mkHost 1 [0]))
           (mkState [VNum 3; VNum 99] VNull (mkHost 2 [5]))
           eq_refl eq_refl).
Defined.

(** [chain([7], 1)] *)
Lemma array_unpacked_only_alone_witness :
  fst (run table [VArray [VNum 7]; VNum 1] 0)
  = Fulfilled (VArray [VArray [VNum 7]; VNum 1]).
Proof.
  apply (proj2 (@array_unpacked_only_alone nat table [VNum 7] (VNum 1) 0)).
  reflexivity.
Defined.

(** [chain(nerf(() => 2), nerf(() => { throw "x"; }), nerf(() => 99))] *)
Lemma nerfed_steps_do_not_stop_chain_witness :
  exists rs,
    fst (run (Nerf.nerf_table sync_table) [VFun 0; VFun 1; VFun 5]
             (0, no_errors))
    = Fulfilled (VArray rs)
    /\ length rs = length (spread [VFun 0; VFun 1; VFun 5])
    /\ calls (env (snd (run (Nerf.nerf_table sync_table)
                            [VFun 0; VFun 1; VFun 5] (0, no_errors))))
       = callables (spread [VFun 0; VFun 1; VFun 5]).
Proof.
  apply (@NerfFacts.nerfed_steps_do_not_stop_chain nat sync_table
           [VFun 0; VFun 1; VFun 5] (0, no_errors)).
  - intros [ | [ | f]] w r w'; simpl; intros [= <- _]; reflexivity.
  - reflexivity.
Defined.

(** [chain(nerf(() => Promise.reject()))] *)
Lemma nerf_lets_rejections_through_witness :
  fst (run (Nerf.nerf_table table) [VFun 4] (0, no_errors))
  = Rejected VUndefined
  /\ snd (world (env (snd (run (Nerf.nerf_table table) [VFun 4]
                               (0, no_errors))))) 4
     = snd (0, no_errors) 4.
Proof.
  apply (@NerfFacts.nerf_lets_rejections_through nat table 4 (0, no_errors)
           (Promise_reject VUndefined) VUndefined 1 eq_refl eq_refl).
Defined.

Import Debounce.

(** Two calls within the limit: the one timer is the one [timing] holds. *)
Lemma at_most_one_timer_witness :
  timing (after counting 100 false
                [Call 0 VNull [VNum 1]; Call 50 VNull [VNum 2]] (init 0))
  = Some 1.
Proof.
  apply (proj2 (@DebounceFacts.at_most_one_timer nat counting 100 false
                  [Call 0 VNull [VNum 1]; Call 50 VNull [VNum 2]] 0)
           1 (Some 100%Z)).
  simpl. left. reflexivity.
Defined.

(** [debounce(fn)], called twice. *)
Lemma zero_limit_calls_through_witness :
  applied (after counting 0 false
                 [Call 0 VNull [VNum 1]; Call 5 VNull [VNum 2]] (init 0))
  = calls_of [Call 0 VNull [VNum 1]; Call 5 VNull [VNum 2]].
Proof.
  apply (@DebounceFacts.zero_limit_calls_through nat counting 0 false
           [Call 0 VNull [VNum 1]; Call 5 VNull [VNum 2]] 0).
  reflexivity.
Defined.

(** [debounce(fn, 100)], called at 0 and at 50; the timer runs at 100, is
    set again, and runs at 150. *)
Lemma trailing_call_waits_for_limit_witness :
  applied (snd (step counting 100 false (Fire 150 2)
                     (after counting 100 false
                            [Call 0 VNull [VNum 1]; Call 50 VNull [VNum 2];
                             Fire 100 1] (init 0))))
  = applied (after counting 100 false
                   [Call 0 VNull [VNum 1]; Call 50 VNull [VNum 2];
                    Fire 100 1] (init 0))
  \/ exists now id t0 this arguments,
       Fire 150 2 = Fire now id
       /\ last_call [Call 0 VNull [VNum 1]; Call 50 VNull [VNum 2];
                     Fire 100 1]
          = Some (t0, this, arguments)
       /\ (100 <= now - t0)%Z
       /\ applied (snd (step counting 100 false (Fire 150 2)
                             (after counting 100 false
                                    [Call 0 VNull [VNum 1];
                                     Call 50 VNull [VNum 2];
                                     Fire 100 1] (init 0))))
          = applied (after counting 100 false
                           [Call 0 VNull [VNum 1]; Call 50 VNull [VNum 2];
                            Fire 100 1] (init 0))
            ++ [(now, this, arguments)].
Proof.
  apply (@DebounceFacts.trailing_call_waits_for_limit nat counting 100 false
           [Call 0 VNull [VNum 1]; Call 50 VNull [VNum 2]; Fire 100 1]
           0 (Fire 150 2)).
  - reflexivity.
  - lia.
Defined.

(** [debounce(fn, 100, true)], called at 0 and again at 50. *)
Lemma leading_call_only_when_idle_witness :
  applied (snd (step counting 100 true (Call 50 VNull [VNum 2])
                     (after counting 100 true [Call 0 VNull [VNum 1]]
                            (init 0))))
  = applied (after counting 100 true [Call 0 VNull [VNum 1]] (init 0))
    ++ match timers (after counting 100 true [Call 0 VNull [VNum 1]]
                           (init 0)) with
       | [] => [(50%Z, VNull, [VNum 2])]
       | _ :: _ => []
       end.
Proof.
  apply (@DebounceFacts.leading_call_only_when_idle nat counting 100 true
           [Call 0 VNull [VNum 1]] 0 (Call 50 VNull [VNum 2])).
  - reflexivity.
  - lia.
Defined.

(** [debounce(fn, 100)] with an [fn] that throws: called at 0, the timer
    runs at 100 and [fn] throws; the calls at 200 and 400 are lost. *)
Lemma throw_in_timer_jams_witness :
  applied (after throwing 100 false
                 [Call 200 VNull []; Fire 300 1; Call 400 VNull []]
                 (snd (step throwing 100 false (Fire 100 1)
                            (after throwing 100 false
                                   [Call 0 VNull [VNum 1]] (init 0)))))
  = applied (snd (step throwing 100 false (Fire 100 1)
                       (after throwing 100 false
                              [Call 0 VNull [VNum 1]] (init 0)))).
Proof.
  apply (@DebounceFacts.throw_in_timer_jams nat throwing 100 false
           [Call 0 VNull [VNum 1]]
           [Call 200 VNull []; Fire 300 1; Call 400 VNull []]
           0 100 1 (VStr "boom")).
  reflexivity.
Defined.

(** [clamp(5, 0, 3)] *)
Lemma clamp_within_ordered_bounds_witness :
  (0 <= Geometry.clamp 5 (Some 0%Z) (Some 3%Z) <= 3)%Z
  /\ (Geometry.clamp 5 (Some 0%Z) (Some 3%Z) = 5%Z <-> (0 <= 5 <= 3)%Z)
  /\ Geometry.clamp (Geometry.clamp 5 (Some 0%Z) (Some 3%Z)) (Some 0%Z)
                    (Some 3%Z)
     = Geometry.clamp 5 (Some 0%Z) (Some 3%Z).
Proof.
  apply (@GeometryFacts.clamp_within_ordered_bounds 5 0 3). lia.
Defined.

(** [clamp(7, 32)] *)
Lemma clamp_upper_bound_wins_witness :
  Geometry.clamp 7 (Some 32%Z) None = 1%Z.
Proof.
  apply (proj1 (proj2 (GeometryFacts.clamp_upper_bound_wins 7 32 None))).
  lia.
Defined.

(** The semicircle at its middle. *)
Lemma deCasteljau_splits_the_curve_witness :
  exists a b,
    Geometry.deCasteljau QArith_base.Qplus QArith_base.Qminus
                         QArith_base.Qmult (QArith_base.Qmake 1 2)
                         semicircle None
    = [Some (Geometry.between QArith_base.Qplus QArith_base.Qminus
                              QArith_base.Qmult (QArith_base.Qmake 1 2) a b);
       Some a; Some b]
    /\ nth 0 (Geometry.deCasteljau QArith_base.Qplus QArith_base.Qminus
                                   QArith_base.Qmult (QArith_base.Qmake 1 2)
                                   (removelast semicircle) None) None
       = Some a
    /\ nth 0 (Geometry.deCasteljau QArith_base.Qplus QArith_base.Qminus
                                   QArith_base.Qmult (QArith_base.Qmake 1 2)
                                   (tl semicircle) None) None
       = Some b.
Proof.
  apply (@DeCasteljauFacts.deCasteljau_splits_the_curve
           QArith_base.Q QArith_base.Qplus QArith_base.Qminus
           QArith_base.Qmult (QArith_base.Qmake 1 2) semicircle None).
  simpl. lia.
Defined.
